(** * Image compressor: the resize-and-recode transform and its caller

    A shallow embedding of the [ImageCompressor] React component
    (components/ImageCompressor): the dimension computation of
    [compressImage], the batch driver [handleCompress], the upload and
    download handlers and [calculateSavings], with the properties the
    specification states about them.

    The file has the definitions first (JavaScript numbers, the host, the
    component, the specification's formulas, the user's actions, sessions
    in which actions fall inside a batch, sample data) and then the
    properties: rounding, the dimension laws, the batch driver, failures,
    savings, download names and uploads, what holds in every session, and
    instances on the sample data. *)

From Stdlib Require Import ZArith QArith Qround Qabs Qpower Lia Lqa.
From Stdlib Require Import String Ascii List Bool.
From Stdlib Require Import Floats Uint63.
From stdpp Require Import base option list.

(** ** JavaScript numbers

    A JavaScript [number] is an IEEE 754 binary64 value.  The finite
    values are modelled as rationals; every arithmetic operation computes
    the exact rational result and rounds it to 53 significant bits, ties
    to even ([round53]).  The exponent range is not bounded (no overflow
    to infinity, no gradual underflow) and the two zeros are identified;
    infinities and NaN arise from division by zero only. *)

Module Number.

Local Open Scope Q_scope.

Inductive number : Type :=
  | Finite (q : Q)
  | PosInf
  | NegInf
  | NaN.

Definition pow2 (e : Z) : Q := 2 ^ e.

(** [ilog2 q] is the binary exponent of a positive rational:
    [2^(ilog2 q) <= q < 2^(ilog2 q + 1)]. *)
Definition ilog2 (q : Q) : Z :=
  let k := (Z.log2 (Qnum q) - Z.log2 (Zpos (Qden q)))%Z in
  if Qle_bool (pow2 k) q then k else (k - 1)%Z.

(** Rounding to the nearest integer, ties to the even one. *)
Definition nearest_even (x : Q) : Z :=
  let f := Qfloor x in
  match Qcompare (x - inject_Z f) (1 # 2) with
  | Lt => f
  | Gt => (f + 1)%Z
  | Eq => if Z.even f then f else (f + 1)%Z
  end.

(** The significand of a positive rational, in [2^52, 2^53). *)
Definition significand (q : Q) : Q := q / pow2 (ilog2 q - 52).

(** Rounding to 53 significant bits: the significand is rounded to an
    integer. *)
Definition round53 (q : Q) : Q :=
  if Qeq_bool q 0 then 0
  else
    let e := (ilog2 (Qabs q) - 52)%Z in
    Qred (inject_Z (nearest_even (q / pow2 e)) * pow2 e).

Definition of_Z (z : Z) : number := Finite (inject_Z z).

Definition Qsign_pos (q : Q) : bool := Qle_bool 0 q.

(** [x - y] *)
Definition sub (x y : number) : number :=
  match x, y with
  | NaN, _ | _, NaN => NaN
  | Finite a, Finite b => Finite (round53 (a - b))
  | Finite _, PosInf => NegInf
  | Finite _, NegInf => PosInf
  | PosInf, PosInf => NaN
  | PosInf, _ => PosInf
  | NegInf, NegInf => NaN
  | NegInf, _ => NegInf
  end.

(** [x * y] *)
Definition mul (x y : number) : number :=
  match x, y with
  | NaN, _ | _, NaN => NaN
  | Finite a, Finite b => Finite (round53 (a * b))
  | Finite a, PosInf | PosInf, Finite a =>
      if Qeq_bool a 0 then NaN else if Qsign_pos a then PosInf else NegInf
  | Finite a, NegInf | NegInf, Finite a =>
      if Qeq_bool a 0 then NaN else if Qsign_pos a then NegInf else PosInf
  | PosInf, PosInf | NegInf, NegInf => PosInf
  | PosInf, NegInf | NegInf, PosInf => NegInf
  end.

(** [x / y] *)
Definition div (x y : number) : number :=
  match x, y with
  | NaN, _ | _, NaN => NaN
  | Finite a, Finite b =>
      if Qeq_bool b 0 then
        if Qeq_bool a 0 then NaN else if Qsign_pos a then PosInf else NegInf
      else Finite (round53 (a / b))
  | Finite _, (PosInf | NegInf) => Finite 0
  | PosInf, Finite b => if Qsign_pos b then PosInf else NegInf
  | NegInf, Finite b => if Qsign_pos b then NegInf else PosInf
  | (PosInf | NegInf), (PosInf | NegInf) => NaN
  end.

(** [x < y] *)
Definition ltb (x y : number) : bool :=
  match x, y with
  | NaN, _ | _, NaN => false
  | Finite a, Finite b => negb (Qle_bool b a)
  | _, NegInf => false
  | NegInf, _ => true
  | PosInf, _ => false
  | Finite _, PosInf => true
  end.

(** [Math.min(x, y)] *)
Definition min (x y : number) : number :=
  match x, y with
  | NaN, _ | _, NaN => NaN
  | _, _ => if ltb y x then y else x
  end.

(** [Math.round(x)]: the nearest integer, ties towards +infinity. *)
Definition round (x : number) : number :=
  match x with
  | Finite q => Finite (inject_Z (Qfloor (q + (1 # 2))))
  | _ => x
  end.

(** ToBoolean: [0] and [NaN] are falsy. *)
Definition truthy (x : number) : bool :=
  match x with
  | Finite q => negb (Qeq_bool q 0)
  | NaN => false
  | _ => true
  end.

(** Truncation towards zero. *)
Definition truncate (q : Q) : Z :=
  if Qle_bool 0 q then Qfloor q else Qceiling q.

(** ToUint32, the conversion of a number to an [unsigned long]. *)
Definition toUint32 (x : number) : Z :=
  match x with
  | Finite q => (truncate q mod 2 ^ 32)%Z
  | _ => 0%Z
  end.

End Number.

(** *** The kernel's binary64 numbers, to compare [round53] with *)

Module Binary64.

Local Open Scope Q_scope.

(** The rational a finite binary64 value stands for. *)
Definition toQ (f : float) : option Q :=
  match Prim2SF f with
  | S754_zero _ => Some 0
  | S754_finite s m e =>
      Some ((if s then -1 else 1) * inject_Z (Zpos m) * Number.pow2 e)
  | _ => None
  end.

Definition ofZ (z : Z) : float := PrimFloat.of_uint63 (Uint63.of_Z z).

Definition agree (q : Q) (f : float) : bool :=
  match toQ f with
  | Some x => Qeq_bool q x
  | None => false
  end.

(** [m / D] and [D * (m / D)], as [compressImage] computes a ratio and a
    scaled side, in the model and in the kernel. *)
Definition ratioAgrees (m D : Z) : bool :=
  let q := Number.round53 (inject_Z m / inject_Z D) in
  let f := (ofZ m / ofZ D)%float in
  agree q f && agree (Number.round53 (inject_Z D * q)) (ofZ D * f)%float.

(** [(a - b) / a * 100], as [calculateSavings] computes it. *)
Definition savingsAgrees (a b : Z) : bool :=
  let q := Number.round53 (Number.round53 (inject_Z a - inject_Z b) / inject_Z a) in
  let f := ((ofZ a - ofZ b) / ofZ a)%float in
  agree (Number.round53 (q * 100)) (f * ofZ 100)%float.

Definition upTo (n : nat) : list Z := map Z.of_nat (seq 1 n).

End Binary64.


Import Number.

(** ** Host objects

    What the browser supplies: files, blobs, the image decoder, the canvas
    encoder, random identifiers and object URLs. *)

Module File.
Record t : Type := { name : string; type : string; size : Z }.
End File.

Module Blob.
Record t : Type := { size : Z; type : string }.
End Blob.

(** A canvas after [canvas.width = _; canvas.height = _;
    ctx.drawImage(img, 0, 0, width, height)]. *)
Record Canvas : Type := {
  canvas_width : Z;
  canvas_height : Z;
  drawn : File.t * number * number   (* the image, and the size it was drawn at *)
}.

Record Host : Type := {
  (** [img.src = URL.createObjectURL(file)]: the natural size the [load]
      event delivers, or [None] when the browser fires [error] instead. *)
  loadImage : File.t -> option (Z * Z);
  (** The encoder behind [canvas.toBlob(cb, type, quality)] on a canvas
      that has pixels: the blob, or [None] for [null]. *)
  encode : Canvas -> string -> number -> option Blob.t;
  (** The n-th [Math.random().toString(36).substr(2, 9)]. *)
  randomId : nat -> string;
  (** The n-th URL made by [URL.createObjectURL]. *)
  createObjectURL : nat -> string
}.

(** ** Component state *)

Record CompressedImage : Type := {
  id : string;
  originalFile : File.t;
  compressedBlob : option Blob.t;
  originalSize : number;
  compressedSize : option number;
  preview : string
}.

Record Settings : Type := {
  quality : number;            (* [quality[0]] *)
  outputFormat : string;
  maxWidth : number;
  maxHeight : number;
  maintainAspectRatio : bool
}.

Inductive Toast : Type :=
  | ToastDone (processed : nat)   (* "Compressao concluida!", with [images.length] *)
  | ToastError.                   (* "Erro na compressao", destructive *)

(** Objects live in a store and are named by references; the image list
    holds references, as a JavaScript array does. *)
Definition ref : Type := nat.

Record World : Type := {
  heap : list CompressedImage;     (* allocated image entries, oldest first *)
  transformCalls : list File.t;    (* the calls of [compressImage] made so far *)
  urls : nat;                      (* object URLs created so far *)
  draws : nat                      (* random identifiers drawn so far *)
}.

Record State : Type := {
  world : World;
  images : list ref;
  isProcessing : bool;
  settings : Settings;
  toasts : list Toast;
  downloads : list (string * Blob.t)   (* [a.download] and the blob behind [a.href] *)
}.

(** ** Promises

    A computation over the world that ends resolved, rejected or never
    settles. *)

Inductive Error : Type :=
  | TypeError.

Inductive Outcome (A : Type) : Type :=
  | Resolved (a : A)
  | Rejected (e : Error)
  | Pending.
Arguments Resolved {A} a.
Arguments Rejected {A} e.
Arguments Pending {A}.

Definition Async (A : Type) : Type := World -> World * Outcome A.

#[global] Instance Async_ret : MRet Async :=
  fun A a w => (w, Resolved a).

#[global] Instance Async_bind : MBind Async :=
  fun A B f m w =>
    match m w with
    | (w', Resolved a) => f a w'
    | (w', Rejected e) => (w', Rejected e)
    | (w', Pending) => (w', Pending)
    end.

(** [Promise.all]: every promise of the list has been started; the result
    rejects as soon as one of them rejects, stays pending while one is
    pending, and resolves with all the values otherwise. *)
Fixpoint Promise_all {A : Type} (ps : list (Async A)) : Async (list A) :=
  match ps with
  | [] => mret []
  | p :: rest =>
      fun w =>
        let '(w1, o) := p w in
        let '(w2, os) := Promise_all rest w1 in
        (w2,
         match o, os with
         | Rejected e, _ => Rejected e
         | _, Rejected e => Rejected e
         | Pending, _ | _, Pending => Pending
         | Resolved a, Resolved l => Resolved (a :: l)
         end)
  end.

(** An optional object-valued field is truthy when it is present. *)
Definition present {A : Type} (field : option A) : bool :=
  match field with
  | Some _ => true
  | None => false
  end.

Definition deref (r : ref) : Async CompressedImage :=
  fun w =>
    match heap w !! r with
    | Some o => (w, Resolved o)
    | None => (w, Rejected TypeError)   (* no such reference in a JavaScript heap *)
    end.

(** The world after an object literal is evaluated: the new object is the
    last of the store. *)
Definition allocate (o : CompressedImage) (w : World) : World :=
  {| heap := heap w ++ [o]; transformCalls := transformCalls w;
     urls := urls w; draws := draws w |}.

Definition alloc (o : CompressedImage) : Async ref :=
  fun w => (allocate o w, Resolved (length (heap w))).

(** The world after [compressImage] is entered: the call is recorded and
    an object URL is made for the file. *)
Definition logCall (file : File.t) (w : World) : World :=
  {| heap := heap w; transformCalls := transformCalls w ++ [file];
     urls := S (urls w); draws := draws w |}.

(** ** The component *)

Section Component.

Variable host : Host.

(** *** [compressImage] *)

(** The dimension computation of the [onload] handler: [width] and
    [height] start as the image's own and end as the size to draw at. *)
Definition targetDimensions (maintainAspectRatio : bool)
    (maxWidth maxHeight : number) (img_width img_height : Z) : number * number :=
  let width := of_Z img_width in
  let height := of_Z img_height in
  if maintainAspectRatio then
    let ratio := min (div maxWidth width) (div maxHeight height) in
    if ltb ratio (of_Z 1) then (mul width ratio, mul height ratio)
    else (width, height)
  else (maxWidth, maxHeight).

(** [canvas.width = v]: the attribute is an [unsigned long] that reflects
    a content attribute, so [v] goes through ToUint32 and a value above
    2147483647 is replaced by the attribute's default. *)
Definition setCanvasDimension (default : Z) (v : number) : Z :=
  let n := toUint32 v in
  if (n <=? 2147483647)%Z then n else default.

(** The canvas once the image is drawn on it. *)
Definition renderCanvas (maintainAspectRatio : bool) (maxWidth maxHeight : number)
    (file : File.t) (img_width img_height : Z) : Canvas :=
  let '(width, height) :=
    targetDimensions maintainAspectRatio maxWidth maxHeight img_width img_height in
  {| canvas_width := setCanvasDimension 300 width;
     canvas_height := setCanvasDimension 150 height;
     drawn := (file, width, height) |}.

(** [canvas.toBlob]: the callback receives [null] when the canvas has no
    pixels, and what the encoder gives otherwise. *)
Definition toBlob (c : Canvas) (type : string) (quality : number) : option Blob.t :=
  if ((canvas_width c =? 0) || (canvas_height c =? 0))%Z then None
  else encode host c type quality.

(** The [img.onload] handler: what it hands to [resolve]. *)
Definition onload (maintainAspectRatio : bool) (file : File.t)
    (img_width img_height : Z) (quality maxWidth maxHeight : number)
    (format : string) : option Blob.t :=
  let canvas :=
    renderCanvas maintainAspectRatio maxWidth maxHeight file img_width img_height in
  toBlob canvas ("image/" ++ format)%string (div quality (of_Z 100)).

(** The promise of [compressImage]: it resolves, with the argument of the
    [toBlob] callback, when the image loads; nothing settles it when the
    image does not load, and nothing rejects it. *)
Definition compressImage (maintainAspectRatio : bool) (file : File.t)
    (quality maxWidth maxHeight : number) (format : string) : Async (option Blob.t) :=
  fun w =>
    match loadImage host file with
    | Some (img_width, img_height) =>
        (logCall file w,
         Resolved (onload maintainAspectRatio file img_width img_height
                     quality maxWidth maxHeight format))
    | None => (logCall file w, Pending)
    end.

(** *** [handleCompress] *)

(** [compressed.size], a TypeError on [null]. *)
Definition blobSize (compressed : option Blob.t) : Async number :=
  fun w =>
    match compressed with
    | Some b => (w, Resolved (of_Z (Blob.size b)))
    | None => (w, Rejected TypeError)
    end.

(** The callback of [images.map]. *)
Definition compressEntry (s : Settings) (img : ref) : Async ref :=
  o ← deref img;
  if negb (present (compressedBlob o)) then
    compressed ← compressImage (maintainAspectRatio s) (originalFile o)
                   (quality s) (maxWidth s) (maxHeight s) (outputFormat s);
    size ← blobSize compressed;
    alloc {| id := id o;
             originalFile := originalFile o;
             compressedBlob := compressed;
             originalSize := originalSize o;
             compressedSize := Some size;
             preview := preview o |}
  else mret img.

Definition handleCompress (st : State) : State :=
  let '(w, result) :=
    Promise_all (map (compressEntry (settings st)) (images st)) (world st) in
  match result with
  | Resolved compressedImages =>
      {| world := w; images := compressedImages; isProcessing := false;
         settings := settings st;
         toasts := toasts st ++ [ToastDone (length (images st))];
         downloads := downloads st |}
  | Rejected _ =>
      {| world := w; images := images st; isProcessing := false;
         settings := settings st;
         toasts := toasts st ++ [ToastError];
         downloads := downloads st |}
  | Pending =>
      {| world := w; images := images st; isProcessing := true;
         settings := settings st;
         toasts := toasts st;
         downloads := downloads st |}
  end.

(** *** [handleFileUpload] *)

Definition addFile (st : State) (file : File.t) : State :=
  if String.prefix "image/"%string (File.type file) then
    let w := world st in
    let o := {| id := randomId host (draws w);
                originalFile := file;
                compressedBlob := None;
                originalSize := of_Z (File.size file);
                compressedSize := None;
                preview := createObjectURL host (urls w) |} in
    {| world := {| heap := heap w ++ [o]; transformCalls := transformCalls w;
                   urls := S (urls w); draws := S (draws w) |};
       images := images st ++ [length (heap w)];
       isProcessing := isProcessing st;
       settings := settings st;
       toasts := toasts st;
       downloads := downloads st |}
  else st.

Definition handleFileUpload (files : list File.t) (st : State) : State :=
  fold_left addFile files st.

(** *** [handleDownload] *)

(** [s.split(sep)] for a one-character separator. *)
Fixpoint split (sep : ascii) (s : string) : list string :=
  match s with
  | EmptyString => [EmptyString]
  | String c rest =>
      if Ascii.eqb c sep then EmptyString :: split sep rest
      else
        match split sep rest with
        | piece :: pieces => String c piece :: pieces
        | [] => [String c EmptyString]
        end
  end.

(** The template literal assigned to [a.download]. *)
Definition downloadName (fileName format : string) : string :=
  let stem :=
    match split "."%char fileName with
    | piece :: _ => piece
    | [] => "undefined"%string
    end in
  ("compressed_" ++ stem ++ "." ++ format)%string.

Definition handleDownload (image : CompressedImage) (st : State) : State :=
  match compressedBlob image with
  | None => st
  | Some blob =>
      let w := world st in
      {| world := {| heap := heap w; transformCalls := transformCalls w;
                     urls := S (urls w); draws := draws w |};
         images := images st;
         isProcessing := isProcessing st;
         settings := settings st;
         toasts := toasts st;
         downloads :=
           downloads st ++
           [(downloadName (File.name (originalFile image)) (outputFormat (settings st)),
             blob)] |}
  end.

(** *** [removeImage] and [calculateSavings] *)

Definition removeImage (key : string) (st : State) : State :=
  {| world := world st;
     images :=
       List.filter (fun r => match heap (world st) !! r with
                             | Some o => negb (String.eqb (id o) key)
                             | None => false
                             end) (images st);
     isProcessing := isProcessing st;
     settings := settings st;
     toasts := toasts st;
     downloads := downloads st |}.

Definition calculateSavings (original : number) (compressed : option number) : number :=
  match compressed with
  | None => of_Z 0
  | Some c =>
      if negb (truthy c) then of_Z 0
      else round (mul (div (sub original c) original) (of_Z 100))
  end.

End Component.

(** ** The specification's own formulas *)

(** Section 8: [round((original - compressed) / original * 100)], in the
    arithmetic of the code. *)
Definition savingsFormula (original compressed : number) : number :=
  round (mul (div (sub original compressed) original) (of_Z 100)).

(** The stem of a file name: the name with its final extension removed. *)
Definition stem (fileName : string) : string :=
  match rev (split "."%char fileName) with
  | _ :: (_ :: _) as before => String.concat "." (rev before)
  | _ => fileName
  end.

(** Section 6: [compressed_<original-stem>.<format>]. *)
Definition specDownloadName (fileName format : string) : string :=
  ("compressed_" ++ stem fileName ++ "." ++ format)%string.

(** ** Notions the statements use *)

(** The value of [ratio] in [compressImage] for integer bounds and a
    source of positive size. *)
Definition ratioOf (maxWidth maxHeight img_width img_height : Z) : Q :=
  let rw := round53 (inject_Z maxWidth / inject_Z img_width)%Q in
  let rh := round53 (inject_Z maxHeight / inject_Z img_height)%Q in
  if Qle_bool rw rh then rw else rh.

(** Two entries with the same source data. *)
Definition sameSource (o o' : CompressedImage) : Prop :=
  id o' = id o /\ originalFile o' = originalFile o /\
  originalSize o' = originalSize o /\ preview o' = preview o.

(** [images.filter(img => img.compressedBlob).length] *)
Definition compressedCount (st : State) : nat :=
  length
    (List.filter (fun r => match heap (world st) !! r with
                           | Some o => present (compressedBlob o)
                           | None => false
                           end) (images st)).

(** The error notices shown so far. *)
Definition errorNotices (st : State) : nat :=
  length (List.filter (fun t => match t with ToastError => true | _ => false end)
            (toasts st)).

(** The files an upload keeps: [file.type.startsWith('image/')]. *)
Definition accepted (files : list File.t) : list File.t :=
  List.filter (fun f => String.prefix "image/" (File.type f)) files.

(** Whether a string has a full stop in it. *)
Fixpoint hasDot (s : string) : bool :=
  match s with
  | EmptyString => false
  | String c rest => Ascii.eqb c "."%char || hasDot rest
  end.

(** What one entry's callback of [handleCompress] leaves behind: the
    returned reference names an object with a blob and with the source
    data of the entry, which is the entry itself or a new object. *)
Definition attached (o' : CompressedImage) : Prop :=
  exists b, compressedBlob o' = Some b /\
            compressedSize o' = Some (of_Z (Blob.size b)).

Definition entryResult (w w' : World) (r r' : ref) : Prop :=
  exists o', heap w' !! r' = Some o' /\ present (compressedBlob o') = true /\
    forall o, heap w !! r = Some o ->
      sameSource o o' /\
      (r' = r /\ o' = o \/
       compressedBlob o = None /\ length (heap w) <= r' /\ attached o').

(** The settings form: [setQuality], [setOutputFormat], [setMaxWidth],
    [setMaxHeight] and [setMaintainAspectRatio]. *)
Definition changeSettings (s : Settings) (st : State) : State :=
  {| world := world st; images := images st; isProcessing := isProcessing st;
     settings := s; toasts := toasts st; downloads := downloads st |}.

(** ** Sample data *)

Module Demo.

Definition photo (n : string) : File.t :=
  {| File.name := n; File.type := "image/png"; File.size := 1000 |}.

Definition first : File.t := photo "first.png".
Definition corrupt : File.t := photo "corrupt.png".
Definition third : File.t := photo "third.png".
Definition notes : File.t :=
  {| File.name := "notes.txt"; File.type := "text/plain"; File.size := 12 |}.

(** A browser that decodes every file but [corrupt] as a 4000x2000
    image and encodes every canvas with pixels to a 100-byte blob. *)
Definition browser : Host :=
  {| loadImage := fun f =>
       if String.eqb (File.name f) "corrupt.png" then None else Some (4000, 2000)%Z;
     encode := fun _ type _ => Some {| Blob.size := 100; Blob.type := type |};
     randomId := fun n => String (ascii_of_nat (97 + n)) "id";
     createObjectURL := fun n => String (ascii_of_nat (97 + n)) "url" |}.

(** A browser that decodes every file and whose encoder gives [null]
    for the canvas of [corrupt]. *)
Definition picky : Host :=
  {| loadImage := fun _ => Some (4000, 2000)%Z;
     encode := fun c type _ =>
       if String.eqb (File.name (drawn c).1.1) "corrupt.png" then None
       else Some {| Blob.size := 100; Blob.type := type |};
     randomId := randomId browser;
     createObjectURL := createObjectURL browser |}.

Definition defaults : Settings :=
  {| quality := of_Z 80; outputFormat := "jpeg";
     maxWidth := of_Z 1920; maxHeight := of_Z 1080;
     maintainAspectRatio := true |}.

Definition initial (s : Settings) : State :=
  {| world := {| heap := []; transformCalls := []; urls := 0; draws := 0 |};
     images := []; isProcessing := false; settings := s;
     toasts := []; downloads := [] |}.

(** The state after the three files are picked. *)
Definition batch (s : Settings) : State :=
  handleFileUpload browser [first; corrupt; third] (initial s).

Definition twoDots : CompressedImage :=
  {| id := "aid";
     originalFile := photo "photo.final.jpg";
     compressedBlob := Some {| Blob.size := 100; Blob.type := "image/jpeg" |};
     originalSize := of_Z 1000;
     compressedSize := Some (of_Z 100);
     preview := "aurl" |}.

(** The three sources again, with a browser that decodes all of them and
    fails to encode the second. *)
Definition pickyBatch : State :=
  handleFileUpload picky [first; corrupt; third] (initial defaults).

(** The two decodable sources, compressed. *)
Definition compressedPair : State :=
  handleCompress browser (handleFileUpload browser [first; third] (initial defaults)).

Definition otherSettings : Settings :=
  {| quality := of_Z 50; outputFormat := "webp";
     maxWidth := of_Z 100; maxHeight := of_Z 100;
     maintainAspectRatio := false |}.

Definition firstCompressed : CompressedImage :=
  {| id := "aid"; originalFile := first;
     compressedBlob := Some {| Blob.size := 100; Blob.type := "image/jpeg" |};
     originalSize := of_Z 1000; compressedSize := Some (of_Z 100);
     preview := "aurl" |}.

End Demo.

(** ** The rest of the component

    [handleDownloadAll], the initial state, the conditions under which the
    buttons are enabled, and the user's actions. *)

(** [handleDownloadAll]: a timer of 100 ms for each image that has a blob;
    timers of one delay fire in the order they were set. *)
Definition handleDownloadAll (st : State) : State :=
  fold_left
    (fun acc r =>
       match heap (world st) !! r with
       | Some image =>
           if present (compressedBlob image) then handleDownload image acc else acc
       | None => acc
       end)
    (images st) st.

(** The state the component starts in: the arguments of [useState]. *)
Definition initialState : State :=
  {| world := {| heap := []; transformCalls := []; urls := 0; draws := 0 |};
     images := [];
     isProcessing := false;
     settings := {| quality := of_Z 80; outputFormat := "jpeg";
                    maxWidth := of_Z 1920; maxHeight := of_Z 1080;
                    maintainAspectRatio := true |};
     toasts := [];
     downloads := [] |}.

(** [disabled={images.length === 0 || isProcessing}] *)
Definition compressDisabled (st : State) : bool :=
  Nat.eqb (length (images st)) 0 || isProcessing st.

(** [disabled={images.filter(img => img.compressedBlob).length === 0}] *)
Definition downloadAllDisabled (st : State) : bool :=
  Nat.eqb (compressedCount st) 0.

(** What the user can do: pick files, press "Comprimir Imagens", press
    "Baixar" or the remove button of the image at an index, press "Baixar
    Todas", or change the settings form. *)
Inductive Action : Type :=
  | Upload (files : list File.t)
  | Compress
  | Download (index : nat)
  | DownloadAll
  | Remove (index : nat)
  | Change (s : Settings).

Definition imageAt (st : State) (index : nat) : option CompressedImage :=
  r ← images st !! index; heap (world st) !! r.

(** The effect of an action when the user waits for it: the batch that
    "Comprimir Imagens" starts has settled, and the timers that "Baixar
    Todas" sets have fired, before anything else happens.  Actions that
    fall inside a batch are the subject of [step] below. *)
Definition perform (host : Host) (st : State) (a : Action) : State :=
  match a with
  | Upload files => handleFileUpload host files st
  | Compress => if compressDisabled st then st else handleCompress host st
  | Download index =>
      match imageAt st index with
      | Some image =>
          if present (compressedBlob image) then handleDownload image st else st
      | None => st
      end
  | DownloadAll => if downloadAllDisabled st then st else handleDownloadAll st
  | Remove index =>
      match imageAt st index with
      | Some image => removeImage (id image) st
      | None => st
      end
  | Change s => changeSettings s st
  end.

Definition run (host : Host) (actions : list Action) (st : State) : State :=
  fold_left (perform host) actions st.

(** ** More notions the statements use *)

(** Every reference of the list names an object of the store. *)
Definition wellFormed (st : State) : Prop :=
  Forall (fun r : ref => r < length (heap (world st))) (images st).

(** The objects of the list, in order. *)
Definition entries (st : State) : list CompressedImage :=
  omap (fun r : ref => heap (world st) !! r) (images st).

Definition idsOf (st : State) : list string := map id (entries st).

(** The identifiers of the list are distinct draws of the host, all made
    already. *)
Definition freshIds (host : Host) (st : State) : Prop :=
  exists ks : list nat,
    idsOf st = map (randomId host) ks /\ NoDup ks /\
    Forall (fun k => k < draws (world st)) ks.

(** A handler that leaves the store, the draws and the list alone. *)
Definition sameList (st st' : State) : Prop :=
  heap (world st') = heap (world st) /\ draws (world st') = draws (world st) /\
  images st' = images st.

(** The sizes an entry shows are those of its file and of its blob. *)
Definition consistent (o : CompressedImage) : Prop :=
  originalSize o = of_Z (File.size (originalFile o)) /\
  match compressedBlob o with
  | Some b => compressedSize o = Some (of_Z (Blob.size b))
  | None => compressedSize o = None
  end.

(** What the promise of [compressImage] ends as, for a file. *)
Definition transformOutcome (host : Host) (s : Settings) (file : File.t)
    : Outcome (option Blob.t) :=
  match loadImage host file with
  | Some (img_width, img_height) =>
      Resolved (onload host (maintainAspectRatio s) file img_width img_height
                  (quality s) (maxWidth s) (maxHeight s) (outputFormat s))
  | None => Pending
  end.

(** An entry [handleCompress] has to transform. *)
Definition needsWork (o : CompressedImage) : bool :=
  negb (present (compressedBlob o)).

(** An entry whose blob comes back [null], and one whose image never
    loads. *)
Definition fails (host : Host) (s : Settings) (o : CompressedImage) : bool :=
  needsWork o &&
  match transformOutcome host s (originalFile o) with
  | Resolved None => true
  | _ => false
  end.

Definition stalls (host : Host) (s : Settings) (o : CompressedImage) : bool :=
  needsWork o &&
  match transformOutcome host s (originalFile o) with
  | Pending => true
  | _ => false
  end.

(** How a promise ends, without its value. *)
Definition shape {A : Type} (o : Outcome A) : Outcome unit :=
  match o with
  | Resolved _ => Resolved tt
  | Rejected e => Rejected e
  | Pending => Pending
  end.

(** How the batch of [handleCompress] ends, read off its entries. *)
Definition batchVerdict (host : Host) (s : Settings) (es : list CompressedImage)
    : Outcome unit :=
  if existsb (fails host s) es then Rejected TypeError
  else if existsb (stalls host s) es then Pending
  else Resolved tt.

(** The entry [handleFileUpload] makes for the [k]-th kept file. *)
Definition newEntry (host : Host) (w : World) (k : nat) (file : File.t)
    : CompressedImage :=
  {| id := randomId host (draws w + k);
     originalFile := file;
     compressedBlob := None;
     originalSize := of_Z (File.size file);
     compressedSize := None;
     preview := createObjectURL host (urls w + k) |}.

(** The characters of a string before its first full stop. *)
Fixpoint beforeDot (s : string) : string :=
  match s with
  | EmptyString => EmptyString
  | String c rest =>
      if Ascii.eqb c "."%char then EmptyString else String c (beforeDot rest)
  end.

(** The file a download of an entry saves. *)
Definition downloadOf (format : string) (o : CompressedImage)
    : option (string * Blob.t) :=
  b ← compressedBlob o; Some (downloadName (File.name (originalFile o)) format, b).

(** ** The component in time

    [handleCompress] is asynchronous: between the press of the button and
    the continuation after [await Promise.all] the file input, the remove
    and download buttons and the settings form stay enabled, and the
    continuation ends with [setImages(compressedImages)], which is not a
    functional update.  The timers of [handleDownloadAll] fire after the
    press as well.  A session is the state of the component together with
    the batch whose continuation has not run and the timers that have not
    fired. *)

(** A started batch: the list [handleCompress] read, and what
    [Promise.all] of its callbacks settles with.  The callbacks run up to
    [compressImage] at the press, where the object URLs are made; the
    objects they return are held by the array [compressedImages] alone
    until the continuation runs, so the store has them from the start. *)
Record Batch : Type := {
  snapshot : list ref;
  outcome : Outcome (list ref)
}.

Record Session : Type := {
  current : State;
  inFlight : option Batch;
  (* the image and the [outputFormat] the closure of a timer holds *)
  timers : list (CompressedImage * string)
}.

Definition initialSession : Session :=
  {| current := initialState; inFlight := None; timers := [] |}.

(** [handleCompress] up to its [await]. *)
Definition startCompress (host : Host) (st : State) : State * Batch :=
  let '(w, result) :=
    Promise_all (map (compressEntry host (settings st)) (images st)) (world st) in
  ({| world := w; images := images st; isProcessing := true;
      settings := settings st; toasts := toasts st; downloads := downloads st |},
   {| snapshot := images st; outcome := result |}).

(** [handleCompress] from its [await] on, in the state of that moment. *)
Definition settleCompress (b : Batch) (st : State) : State :=
  match outcome b with
  | Resolved compressedImages =>
      {| world := world st; images := compressedImages; isProcessing := false;
         settings := settings st;
         toasts := toasts st ++ [ToastDone (length (snapshot b))];
         downloads := downloads st |}
  | Rejected _ =>
      {| world := world st; images := images st; isProcessing := false;
         settings := settings st;
         toasts := toasts st ++ [ToastError];
         downloads := downloads st |}
  | Pending => st
  end.

(** The callback of a timer: [handleDownload] of the render in which
    "Baixar Todas" was pressed, with that render's [outputFormat]. *)
Definition timedDownload (image : CompressedImage) (format : string) (st : State)
    : State :=
  match compressedBlob image with
  | None => st
  | Some blob =>
      let w := world st in
      {| world := {| heap := heap w; transformCalls := transformCalls w;
                     urls := S (urls w); draws := draws w |};
         images := images st;
         isProcessing := isProcessing st;
         settings := settings st;
         toasts := toasts st;
         downloads :=
           downloads st ++
           [(downloadName (File.name (originalFile image)) format, blob)] |}
  end.

(** The timers one press of "Baixar Todas" sets. *)
Definition timersOf (st : State) : list (CompressedImage * string) :=
  omap (fun image =>
          if present (compressedBlob image)
          then Some (image, outputFormat (settings st)) else None)
       (entries st).

(** What happens in a session: the user acts, the continuation of the
    batch in flight runs, or the oldest timer fires. *)
Inductive Event : Type :=
  | User (a : Action)
  | Settle
  | Fire.

Definition step (host : Host) (ss : Session) (e : Event) : Session :=
  match e with
  | User Compress =>
      if compressDisabled (current ss) then ss
      else
        let '(st, b) := startCompress host (current ss) in
        {| current := st; inFlight := Some b; timers := timers ss |}
  | User DownloadAll =>
      if downloadAllDisabled (current ss) then ss
      else
        {| current := current ss; inFlight := inFlight ss;
           timers := timers ss ++ timersOf (current ss) |}
  | User a =>
      {| current := perform host (current ss) a; inFlight := inFlight ss;
         timers := timers ss |}
  | Settle =>
      match inFlight ss with
      | Some b =>
          match outcome b with
          | Pending => ss
          | _ =>
              {| current := settleCompress b (current ss); inFlight := None;
                 timers := timers ss |}
          end
      | None => ss
      end
  | Fire =>
      match timers ss with
      | (image, format) :: rest =>
          {| current := timedDownload image format (current ss);
             inFlight := inFlight ss; timers := rest |}
      | [] => ss
      end
  end.

Definition play (host : Host) (events : list Event) (ss : Session) : Session :=
  fold_left (step host) events ss.

(** The identifiers drawn so far are pairwise different. *)
Definition distinctDraws (host : Host) (st : State) : Prop :=
  forall m n, m < draws (world st) -> n < draws (world st) ->
              randomId host m = randomId host n -> m = n.

(** The references of the list, and of the results of the batch in
    flight, name objects of the store whose identifiers are distinct
    draws. *)
Definition sound (host : Host) (ss : Session) : Prop :=
  wellFormed (current ss) /\ freshIds host (current ss) /\
  match inFlight ss with
  | Some b =>
      wellFormed (settleCompress b (current ss)) /\
      freshIds host (settleCompress b (current ss))
  | None => True
  end.

(** One state's store extends another's. *)
Definition grows (st st' : State) : Prop :=
  heap (world st) `prefix_of` heap (world st') /\
  draws (world st) <= draws (world st').

(** ** More sample data *)

Module Sample.

(** A browser like [Demo.browser] whose n-th identifier is [n] letters
    long, so that no identifier repeats. *)
Fixpoint unary (n : nat) : string :=
  match n with
  | O => EmptyString
  | S m => String "x" (unary m)
  end.

Definition careful : Host :=
  {| loadImage := loadImage Demo.browser;
     encode := encode Demo.browser;
     randomId := unary;
     createObjectURL := createObjectURL Demo.browser |}.

Definition session : list Action :=
  [Upload [Demo.first; Demo.notes; Demo.third]; Compress;
   Upload [Demo.photo "photo.final.jpg"]; Remove 0; Compress; DownloadAll].

Definition stalled : State :=
  handleCompress Demo.browser (Demo.batch Demo.defaults).

(** Two files are picked and compressed; while the batch is in flight the
    first image is removed, another file is picked and "Baixar Todas" is
    pressed. *)
Definition picked : list Event := [User (Upload [Demo.first; Demo.third])].

Definition meanwhile : list Event :=
  [User (Remove 0); User (Upload [Demo.photo "late.png"]); User DownloadAll; Fire].

Definition overlap : list Event :=
  picked ++ [User Compress] ++ meanwhile ++ [Settle; User DownloadAll; Fire].

End Sample.

(** * Properties *)

(** ** Rounding to 53 bits *)

Module NumberFacts.

Local Open Scope Q_scope.

Lemma two_neq_0 : ~ 2 == 0.
Proof. discriminate. Qed.

Lemma pow2_pos e : 0 < pow2 e.
Proof. apply Qpower_0_lt. reflexivity. Qed.

Lemma pow2_add a b : pow2 (a + b) == pow2 a * pow2 b.
Proof. apply Qpower_plus, two_neq_0. Qed.

Lemma pow2_succ a : pow2 (a + 1) == 2 * pow2 a.
Proof. rewrite pow2_add. unfold pow2 at 2. simpl. ring. Qed.

Lemma pow2_le a b : (a <= b)%Z -> pow2 a <= pow2 b.
Proof. intros H. apply Qpower_le_compat_l; [exact H | discriminate]. Qed.

Lemma pow2_lt a b : (a < b)%Z -> pow2 a < pow2 b.
Proof. intros H. apply Qpower_lt_compat_l; [exact H | reflexivity]. Qed.

Lemma pow2_Z n : (0 <= n)%Z -> inject_Z (2 ^ n) == pow2 n.
Proof. intros H. unfold pow2. now rewrite Zpower_Qpower. Qed.

Lemma inject_Z_le a b : (a <= b)%Z -> inject_Z a <= inject_Z b.
Proof. intros H. now rewrite <- Zle_Qle. Qed.

Lemma inject_Z_lt a b : (a < b)%Z -> inject_Z a < inject_Z b.
Proof. intros H. now rewrite <- Zlt_Qlt. Qed.

(** *** The binary exponent *)

Lemma ilog2_spec q : 0 < q -> pow2 (ilog2 q) <= q /\ q < pow2 (ilog2 q + 1).
Proof.
  intros Hq. destruct q as [n d].
  assert (Hn : (0 < n)%Z) by (unfold Qlt in Hq; simpl in Hq; lia).
  unfold ilog2. cbn [Qnum Qden].
  set (a := Z.log2 n). set (b := Z.log2 (Z.pos d)).
  destruct (Z.log2_spec n Hn) as [Ha1 Ha2].
  destruct (Z.log2_spec (Z.pos d) eq_refl) as [Hb1 Hb2].
  fold a in Ha1, Ha2. fold b in Hb1, Hb2.
  assert (Ha0 : (0 <= a)%Z) by apply Z.log2_nonneg.
  assert (Hb0 : (0 <= b)%Z) by apply Z.log2_nonneg.
  apply inject_Z_le in Ha1, Hb1. apply inject_Z_lt in Ha2, Hb2.
  rewrite pow2_Z in Ha1, Hb1 by lia.
  rewrite pow2_Z in Ha2, Hb2 by lia.
  replace (Z.succ a) with (a + 1)%Z in Ha2 by lia.
  replace (Z.succ b) with (b + 1)%Z in Hb2 by lia.
  rewrite pow2_succ in Ha2, Hb2.
  assert (HA : pow2 a == pow2 (a - b) * pow2 b).
  { rewrite <- pow2_add. now replace (a - b + b)%Z with a by lia. }
  pose proof (pow2_pos (a - b)) as HP. pose proof (pow2_pos b) as HB.
  assert (HD : 0 < inject_Z (Z.pos d)) by reflexivity.
  assert (Hnd : n # d == inject_Z n / inject_Z (Z.pos d)) by apply Qmake_Qdiv.
  set (N := inject_Z n) in *. set (D := inject_Z (Z.pos d)) in *.
  set (P := pow2 (a - b)) in *. set (A := pow2 a) in *. set (B := pow2 b) in *.
  destruct (Qle_bool P (n # d)) eqn:Htest.
  - apply Qle_bool_iff in Htest. split; [exact Htest |].
    rewrite pow2_succ. fold P. rewrite Hnd.
    apply Qlt_shift_div_r; [exact HD |]. nra.
  - assert (Hlt : n # d < P).
    { apply Qnot_le_lt. intros H. apply Qle_bool_iff in H. congruence. }
    replace (a - b - 1 + 1)%Z with (a - b)%Z by lia. fold P.
    split; [| exact Hlt].
    assert (HP' : P == 2 * pow2 (a - b - 1)).
    { unfold P. rewrite <- pow2_succ. now replace (a - b - 1 + 1)%Z with (a - b)%Z by lia. }
    rewrite Hnd. apply Qle_shift_div_l; [exact HD |].
    pose proof (pow2_pos (a - b - 1)). nra.
Qed.

Lemma ilog2_unique q a : pow2 a <= q -> q < pow2 (a + 1) -> ilog2 q = a.
Proof.
  intros H1 H2.
  assert (Hq : 0 < q) by (pose proof (pow2_pos a); lra).
  destruct (ilog2_spec q Hq) as [H3 H4].
  destruct (Z.lt_trichotomy (ilog2 q) a) as [Hlt | [Heq | Hgt]]; [| exact Heq |].
  - pose proof (pow2_le (ilog2 q + 1) a ltac:(lia)). lra.
  - pose proof (pow2_le (a + 1) (ilog2 q) ltac:(lia)). lra.
Qed.

Lemma ilog2_mono x y : 0 < x -> x <= y -> (ilog2 x <= ilog2 y)%Z.
Proof.
  intros Hx Hxy.
  destruct (ilog2_spec x Hx) as [H1 H2].
  destruct (ilog2_spec y ltac:(lra)) as [H3 H4].
  destruct (Z_le_gt_dec (ilog2 x) (ilog2 y)) as [H | H]; [exact H |].
  pose proof (pow2_le (ilog2 y + 1) (ilog2 x) ltac:(lia)). lra.
Qed.

(** *** Rounding to the nearest integer *)

Lemma nearest_even_comp x y : x == y -> nearest_even x = nearest_even y.
Proof.
  intros H. unfold nearest_even.
  assert (Hf : Qfloor x = Qfloor y) by now rewrite H.
  rewrite Hf.
  assert (Hc : Qcompare (x - inject_Z (Qfloor y)) (1 # 2)
               = Qcompare (y - inject_Z (Qfloor y)) (1 # 2)) by now rewrite H.
  now rewrite Hc.
Qed.

Lemma nearest_even_Z n : nearest_even (inject_Z n) = n.
Proof.
  unfold nearest_even. rewrite Qfloor_Z.
  destruct (Qcompare_spec (inject_Z n - inject_Z n) (1 # 2)) as [C | C | C].
  - exfalso. lra.
  - reflexivity.
  - exfalso. lra.
Qed.

Lemma nearest_even_mono x y : x <= y -> (nearest_even x <= nearest_even y)%Z.
Proof.
  intros Hxy.
  pose proof (Qfloor_resp_le x y Hxy) as Hfl.
  pose proof (Qfloor_le y) as Hy1. pose proof (Qlt_floor x) as Hx2.
  unfold nearest_even.
  destruct (Z.eq_dec (Qfloor x) (Qfloor y)) as [He | Hne].
  - rewrite <- He in *.
    destruct (Qcompare_spec (x - inject_Z (Qfloor x)) (1 # 2)) as [Cx | Cx | Cx];
      destruct (Qcompare_spec (y - inject_Z (Qfloor x)) (1 # 2)) as [Cy | Cy | Cy];
      try (exfalso; lra);
      destruct (Z.even (Qfloor x)); lia.
  - assert (Qfloor x + 1 <= Qfloor y)%Z by lia.
    destruct (Qcompare (x - inject_Z (Qfloor x)) (1 # 2));
      destruct (Qcompare (y - inject_Z (Qfloor y)) (1 # 2));
      destruct (Z.even (Qfloor x)); destruct (Z.even (Qfloor y)); lia.
Qed.

(** *** [round53] *)

Lemma round53_pos_eq q :
  0 < q ->
  round53 q == inject_Z (nearest_even (significand q)) * pow2 (ilog2 q - 52).
Proof.
  intros Hq. unfold round53, significand.
  destruct (Qeq_bool q 0) eqn:Hz.
  - apply Qeq_bool_iff in Hz. lra.
  - rewrite Qred_correct.
    destruct q as [n d]. destruct n as [| p | p]; try (now exfalso; compute in Hq).
    reflexivity.
Qed.

Lemma significand_bounds q : 0 < q -> pow2 52 <= significand q /\ significand q < pow2 53.
Proof.
  intros Hq. destruct (ilog2_spec q Hq) as [H1 H2].
  pose proof (pow2_pos (ilog2 q - 52)) as He.
  assert (E1 : pow2 (ilog2 q) == pow2 52 * pow2 (ilog2 q - 52)).
  { rewrite <- pow2_add. now replace (52 + (ilog2 q - 52))%Z with (ilog2 q) by lia. }
  assert (E2 : pow2 (ilog2 q + 1) == pow2 53 * pow2 (ilog2 q - 52)).
  { rewrite <- pow2_add. now replace (53 + (ilog2 q - 52))%Z with (ilog2 q + 1)%Z by lia. }
  unfold significand. split.
  - apply Qle_shift_div_l; [exact He | lra].
  - apply Qlt_shift_div_r; [exact He | lra].
Qed.

Lemma nearest_even_significand q :
  0 < q ->
  (2 ^ 52 <= nearest_even (significand q) <= 2 ^ 53)%Z.
Proof.
  intros Hq. destruct (significand_bounds q Hq) as [H1 H2].
  rewrite <- (pow2_Z 52) in H1 by lia. rewrite <- (pow2_Z 53) in H2 by lia.
  split.
  - rewrite <- (nearest_even_Z (2 ^ 52)). now apply nearest_even_mono.
  - rewrite <- (nearest_even_Z (2 ^ 53)). apply nearest_even_mono. lra.
Qed.

Lemma round53_0_eq q : q == 0 -> round53 q = 0.
Proof.
  intros H. unfold round53. apply Qeq_bool_iff in H. now rewrite H.
Qed.

Lemma round53_0 q : q == 0 -> round53 q == 0.
Proof. intros H. now rewrite round53_0_eq. Qed.

Lemma round53_pos q : 0 < q -> 0 < round53 q.
Proof.
  intros Hq. rewrite (round53_pos_eq q Hq).
  pose proof (nearest_even_significand q Hq) as [H _].
  pose proof (pow2_pos (ilog2 q - 52)).
  assert (0 < inject_Z (nearest_even (significand q))).
  { apply (inject_Z_lt 0). lia. }
  nra.
Qed.

Lemma round53_nonneg q : 0 <= q -> 0 <= round53 q.
Proof.
  intros H. destruct (Qlt_le_dec 0 q) as [Hp | Hz].
  - apply Qlt_le_weak, round53_pos, Hp.
  - rewrite round53_0_eq by lra. lra.
Qed.

Lemma round53_mono_pos x y : 0 < x -> x <= y -> round53 x <= round53 y.
Proof.
  intros Hx Hxy. assert (Hy : 0 < y) by lra.
  rewrite (round53_pos_eq x Hx), (round53_pos_eq y Hy).
  pose proof (ilog2_mono x y Hx Hxy) as He.
  pose proof (pow2_pos (ilog2 x - 52)) as Px.
  pose proof (pow2_pos (ilog2 y - 52)) as Py.
  destruct (Z.eq_dec (ilog2 x) (ilog2 y)) as [E | NE].
  - assert (Hs : significand x <= significand y).
    { unfold significand. rewrite E. apply Qmult_le_compat_r; [exact Hxy |].
      apply Qlt_le_weak, Qinv_lt_0_compat, pow2_pos. }
    apply nearest_even_mono, inject_Z_le in Hs.
    rewrite E in *. nra.
  - pose proof (nearest_even_significand x Hx) as [_ Hx2].
    pose proof (nearest_even_significand y Hy) as [Hy1 _].
    apply inject_Z_le in Hx2, Hy1.
    rewrite pow2_Z in Hx2, Hy1 by lia.
    assert (Hp : pow2 53 * pow2 (ilog2 x - 52) <= pow2 52 * pow2 (ilog2 y - 52)).
    { rewrite <- !pow2_add. apply pow2_le. lia. }
    pose proof (pow2_pos 52). pose proof (pow2_pos 53).
    set (mx := inject_Z (nearest_even (significand x))) in *.
    set (my := inject_Z (nearest_even (significand y))) in *.
    apply Qle_trans with (pow2 53 * pow2 (ilog2 x - 52)); [nra |].
    apply Qle_trans with (pow2 52 * pow2 (ilog2 y - 52)); [exact Hp | nra].
Qed.

Lemma round53_mono x y : 0 <= x -> x <= y -> round53 x <= round53 y.
Proof.
  intros Hx Hxy.
  destruct (Qlt_le_dec 0 x) as [Hpos | Hz].
  - now apply round53_mono_pos.
  - rewrite (round53_0 x) by lra.
    destruct (Qlt_le_dec 0 y) as [Hy | Hy].
    + apply Qlt_le_weak, round53_pos, Hy.
    + rewrite (round53_0 y) by lra. lra.
Qed.

(** A value [k * 2^j] with [k] below [2^53] is a binary64 number: rounding
    leaves it as it is. *)
Lemma round53_exact k j :
  (0 < k < 2 ^ 53)%Z -> round53 (inject_Z k * pow2 j) == inject_Z k * pow2 j.
Proof.
  intros [Hk1 Hk2].
  pose proof (pow2_pos j) as Pj.
  assert (Hk : 0 < inject_Z k) by now apply (inject_Z_lt 0).
  assert (Hq : 0 < inject_Z k * pow2 j) by nra.
  destruct (Z.log2_spec k Hk1) as [L1 L2].
  assert (L0 : (0 <= Z.log2 k)%Z) by apply Z.log2_nonneg.
  assert (L52 : (Z.log2 k <= 52)%Z).
  { destruct (Z_le_gt_dec (Z.log2 k) 52) as [? | Hgt]; [assumption |].
    assert (2 ^ 53 <= 2 ^ Z.log2 k)%Z by (apply Z.pow_le_mono_r; lia). lia. }
  assert (Hlog : ilog2 (inject_Z k * pow2 j) = (Z.log2 k + j)%Z).
  { apply inject_Z_le in L1. apply inject_Z_lt in L2.
    rewrite pow2_Z in L1, L2 by lia.
    apply ilog2_unique.
    - rewrite pow2_add. nra.
    - replace (Z.log2 k + j + 1)%Z with (Z.succ (Z.log2 k) + j)%Z by lia.
      rewrite pow2_add. nra. }
  rewrite (round53_pos_eq _ Hq). unfold significand. rewrite Hlog.
  set (e := (Z.log2 k + j - 52)%Z).
  pose proof (pow2_pos e) as Pe.
  assert (Hj : pow2 j == pow2 (52 - Z.log2 k) * pow2 e).
  { rewrite <- pow2_add. unfold e. now replace (52 - Z.log2 k + (Z.log2 k + j - 52))%Z with j by lia. }
  assert (Hs : inject_Z k * pow2 j / pow2 e == inject_Z (k * 2 ^ (52 - Z.log2 k))).
  { rewrite inject_Z_mult, pow2_Z by lia. rewrite Hj. field. lra. }
  rewrite (nearest_even_comp _ _ Hs), nearest_even_Z.
  rewrite inject_Z_mult, pow2_Z by lia. rewrite Hj. ring.
Qed.

Lemma round53_comp x y : 0 <= x -> x == y -> round53 x == round53 y.
Proof.
  intros Hx E. apply Qle_antisym; apply round53_mono; lra.
Qed.

Lemma round53_Z n : (0 <= n < 2 ^ 53)%Z -> round53 (inject_Z n) == inject_Z n.
Proof.
  intros [H0 H1]. destruct (Z.eq_dec n 0%Z) as [-> | Hn]; [reflexivity |].
  assert (Hp : 0 < inject_Z n) by (apply (inject_Z_lt 0); lia).
  assert (E : inject_Z n == inject_Z n * pow2 0) by (unfold pow2; simpl; ring).
  rewrite (round53_comp _ _ (Qlt_le_weak _ _ Hp) E).
  rewrite round53_exact by lia. now rewrite <- E.
Qed.

(** Rounding never crosses a binary64 number. *)
Lemma round53_le_exact x k j :
  0 <= x -> (0 < k < 2 ^ 53)%Z -> x <= inject_Z k * pow2 j ->
  round53 x <= inject_Z k * pow2 j.
Proof.
  intros Hx Hk Hle. rewrite <- (round53_exact k j Hk). now apply round53_mono.
Qed.

Lemma round53_ge_exact x k j :
  (0 < k < 2 ^ 53)%Z -> inject_Z k * pow2 j <= x ->
  inject_Z k * pow2 j <= round53 x.
Proof.
  intros Hk Hle. rewrite <- (round53_exact k j Hk) at 1.
  apply round53_mono_pos; [| exact Hle].
  pose proof (pow2_pos j). assert (0 < inject_Z k) by (apply (inject_Z_lt 0); lia). nra.
Qed.

End NumberFacts.

(** ** The dimension computation *)

Module DimensionFacts.

Import NumberFacts.
Local Open Scope Q_scope.

Lemma Qfloor_nonneg q : 0 <= q -> (0 <= Qfloor q)%Z.
Proof. intros H. apply (Qfloor_resp_le 0 q H). Qed.

Lemma Qfloor_lt_Z q n : q < inject_Z n -> (Qfloor q < n)%Z.
Proof.
  intros H. pose proof (Qfloor_le q). rewrite Zlt_Qlt. lra.
Qed.

Lemma Qfloor_le_Z q n : q < inject_Z (n + 1) -> (Qfloor q <= n)%Z.
Proof. intros H. apply Qfloor_lt_Z in H. lia. Qed.

Lemma Qfloor_ge_Z q n : inject_Z n <= q -> (n <= Qfloor q)%Z.
Proof. intros H. rewrite <- (Qfloor_Z n). now apply Qfloor_resp_le. Qed.

(** Assigning a number in the attribute's range to [canvas.width] keeps
    its integer part. *)
Lemma setCanvasDimension_finite default q :
  0 <= q -> q < inject_Z (2 ^ 31) ->
  setCanvasDimension default (Finite q) = Qfloor q.
Proof.
  intros H0 H1. unfold setCanvasDimension, toUint32, truncate.
  apply Qle_bool_iff in H0 as Hb. rewrite Hb.
  pose proof (Qfloor_nonneg q H0). pose proof (Qfloor_lt_Z q _ H1).
  rewrite Z.mod_small by lia.
  destruct (Z.leb_spec (Qfloor q) 2147483647); [reflexivity | lia].
Qed.


Lemma targetDimensions_aspect mw mh W H :
  (0 < W)%Z -> (0 < H)%Z ->
  targetDimensions true (of_Z mw) (of_Z mh) W H =
    let r := ratioOf mw mh W H in
    if Qle_bool 1 r then (of_Z W, of_Z H)
    else (Finite (round53 (inject_Z W * r)), Finite (round53 (inject_Z H * r))).
Proof.
  intros HW HH. unfold targetDimensions, ratioOf, of_Z, div, min, ltb, mul.
  assert (EW : Qeq_bool (inject_Z W) 0 = false).
  { destruct (Qeq_bool (inject_Z W) 0) eqn:E; [| reflexivity].
    apply Qeq_bool_iff in E.
    assert (0 < inject_Z W) by (apply (inject_Z_lt 0); lia). lra. }
  assert (EH : Qeq_bool (inject_Z H) 0 = false).
  { destruct (Qeq_bool (inject_Z H) 0) eqn:E; [| reflexivity].
    apply Qeq_bool_iff in E.
    assert (0 < inject_Z H) by (apply (inject_Z_lt 0); lia). lra. }
  rewrite EW, EH.
  set (rw := round53 (inject_Z mw / inject_Z W)).
  set (rh := round53 (inject_Z mh / inject_Z H)).
  destruct (Qle_bool rw rh) eqn:Emin; cbn [negb];
    match goal with |- context [Qle_bool (inject_Z 1) ?r] =>
      change (inject_Z 1) with 1; destruct (Qle_bool 1 r) end; reflexivity.
Qed.

Lemma ratioOf_min mw mh W H :
  let r := ratioOf mw mh W H in
  r <= round53 (inject_Z mw / inject_Z W) /\
  r <= round53 (inject_Z mh / inject_Z H) /\
  (r == round53 (inject_Z mw / inject_Z W) \/ r == round53 (inject_Z mh / inject_Z H)).
Proof.
  unfold ratioOf.
  set (rw := round53 (inject_Z mw / inject_Z W)).
  set (rh := round53 (inject_Z mh / inject_Z H)).
  destruct (Qle_bool rw rh) eqn:E; cbn zeta.
  - apply Qle_bool_iff in E. repeat split; [lra | lra | left; reflexivity].
  - assert (rh < rw).
    { apply Qnot_le_lt. intros X. apply Qle_bool_iff in X. congruence. }
    repeat split; [lra | lra | right; reflexivity].
Qed.

Lemma inject_Z_pred n : inject_Z (n - 1) == inject_Z n - 1.
Proof. unfold Z.sub. rewrite inject_Z_plus, inject_Z_opp. reflexivity. Qed.

Lemma inject_Z_succ n : inject_Z (n + 1) == inject_Z n + 1.
Proof. rewrite inject_Z_plus. reflexivity. Qed.

Lemma round53_le_Z x n :
  0 <= x -> (0 < n < 2 ^ 53)%Z -> x <= inject_Z n -> round53 x <= inject_Z n.
Proof.
  intros Hx Hn Hle.
  assert (E : inject_Z n == inject_Z n * pow2 0) by (unfold pow2; simpl; ring).
  rewrite E. apply round53_le_exact; [exact Hx | exact Hn | now rewrite <- E].
Qed.

Lemma round53_ge_Z x n :
  (0 < n < 2 ^ 53)%Z -> inject_Z n <= x -> inject_Z n <= round53 x.
Proof.
  intros Hn Hle.
  assert (E : inject_Z n == inject_Z n * pow2 0) by (unfold pow2; simpl; ring).
  rewrite E. apply round53_ge_exact; [exact Hn | now rewrite <- E].
Qed.

(** A quotient of integers below one, as [compressImage] computes it,
    times the divisor, is back within [2^-9] of the dividend. *)
Lemma scale_back D m r :
  (0 < m < D)%Z -> (D < 2 ^ 31)%Z ->
  0 < r -> r <= round53 (inject_Z m / inject_Z D) ->
  round53 (inject_Z D * r) <= inject_Z m + pow2 (-9).
Proof.
  intros [Hm0 HmD] HD Hr0 Hr.
  assert (Dpos : 0 < inject_Z D) by (apply (inject_Z_lt 0); lia).
  assert (mpos : 0 < inject_Z m) by (apply (inject_Z_lt 0); lia).
  assert (HmD' : inject_Z m < inject_Z D) by now apply inject_Z_lt.
  assert (HD' : inject_Z D < 2147483648) by (apply (inject_Z_lt _ (2 ^ 31)); lia).
  set (t := inject_Z m / inject_Z D) in *.
  assert (Ht : t * inject_Z D == inject_Z m) by (unfold t; field; lra).
  assert (Ht0 : 0 < t) by (apply Qlt_shift_div_l; lra).
  assert (Ht1 : t < 1) by (apply Qlt_shift_div_r; lra).
  assert (P40 : pow2 40 == 1099511627776) by reflexivity.
  assert (N40 : pow2 (-40) == 1 # 1099511627776) by reflexivity.
  assert (N9 : pow2 (-9) == 1 # 512) by reflexivity.
  set (K := Qceiling (t * pow2 40)).
  pose proof (Qle_ceiling (t * pow2 40)) as K1.
  pose proof (Qceiling_lt (t * pow2 40)) as K2. fold K in K1, K2.
  rewrite inject_Z_pred in K2.
  assert (HK : (0 < K < 2 ^ 53)%Z).
  { split.
    - rewrite Zlt_Qlt. change (inject_Z 0) with 0. nra.
    - assert (inject_Z K < inject_Z (2 ^ 41)); [| rewrite <- Zlt_Qlt in *; lia].
      change (inject_Z (2 ^ 41)) with 2199023255552. nra. }
  assert (Hy : round53 t <= inject_Z K * pow2 (-40)).
  { apply round53_le_exact; [lra | exact HK | nra]. }
  assert (HX : inject_Z D * r <= inject_Z (m * 2 ^ 9 + 1) * pow2 (-9)).
  { rewrite inject_Z_plus, inject_Z_mult.
    change (inject_Z (2 ^ 9)) with 512. change (inject_Z 1) with 1.
    assert (inject_Z D * r <= inject_Z D * (inject_Z K * pow2 (-40))) by nra.
    nra. }
  assert (Hk : (0 < m * 2 ^ 9 + 1 < 2 ^ 53)%Z) by lia.
  pose proof (round53_le_exact (inject_Z D * r) _ (-9) ltac:(nra) Hk HX) as Hz.
  rewrite inject_Z_plus, inject_Z_mult in Hz.
  change (inject_Z (2 ^ 9)) with 512 in Hz. change (inject_Z 1) with 1 in Hz.
  nra.
Qed.

(** One side of the scaled image: the rounded product, cut to an integer
    by the canvas, stays within the bound and the native size, and within
    one pixel of the exact product. *)
Lemma scaled_dimension D m r :
  (0 < D < 2 ^ 31)%Z -> (0 < m)%Z ->
  0 < r -> r < 1 -> r <= round53 (inject_Z m / inject_Z D) ->
  let x := round53 (inject_Z D * r) in
  0 <= x /\ x < inject_Z (2 ^ 31) /\
  (Qfloor x <= m)%Z /\ (Qfloor x <= D)%Z /\
  inject_Z D * r - 1 < inject_Z (Qfloor x) /\
  inject_Z (Qfloor x) < inject_Z D * r + 1.
Proof.
  intros [HD0 HD1] Hm0 Hr0 Hr1 Hr x.
  assert (Dpos : 0 < inject_Z D) by (apply (inject_Z_lt 0); lia).
  assert (HX0 : 0 < inject_Z D * r) by nra.
  assert (HX1 : inject_Z D * r <= inject_Z D) by nra.
  assert (Hx0 : 0 < x) by now apply round53_pos.
  assert (HxD : x <= inject_Z D).
  { apply round53_le_Z; [lra | lia | exact HX1]. }
  assert (HD31 : inject_Z D < inject_Z (2 ^ 31)) by now apply inject_Z_lt.
  assert (N9 : pow2 (-9) == 1 # 512) by reflexivity.
  pose proof (Qfloor_le x) as Fx1. pose proof (Qlt_floor x) as Fx2.
  rewrite inject_Z_succ in Fx2.
  repeat split.
  - lra.
  - lra.
  - destruct (Z_lt_le_dec m D) as [Hlt | Hge].
    + pose proof (scale_back D m r ltac:(lia) HD1 Hr0 Hr) as Hs. fold x in Hs.
      apply Qfloor_le_Z. rewrite inject_Z_succ. lra.
    + apply inject_Z_le in Hge.
      apply Qfloor_le_Z. rewrite inject_Z_succ. lra.
  - apply Qfloor_le_Z. rewrite inject_Z_succ. lra.
  - pose proof (Qfloor_le (inject_Z D * r)) as F1.
    pose proof (Qlt_floor (inject_Z D * r)) as F2.
    rewrite inject_Z_succ in F2.
    assert (Hk0 : (0 <= Qfloor (inject_Z D * r))%Z) by (apply Qfloor_nonneg; lra).
    assert (HkD : (Qfloor (inject_Z D * r) <= D)%Z).
    { apply Qfloor_le_Z. rewrite inject_Z_succ. lra. }
    assert (Hge : inject_Z (Qfloor (inject_Z D * r)) <= x).
    { destruct (Z.eq_dec (Qfloor (inject_Z D * r)) 0%Z) as [E | NE].
      - rewrite E. change (inject_Z 0) with 0. lra.
      - apply round53_ge_Z; [lia | exact F1]. }
    apply Qfloor_ge_Z, inject_Z_le in Hge. lra.
  - pose proof (Qle_ceiling (inject_Z D * r)) as C1.
    pose proof (Qceiling_lt (inject_Z D * r)) as C2.
    rewrite inject_Z_pred in C2.
    assert (Hc0 : (0 < Qceiling (inject_Z D * r))%Z).
    { rewrite Zlt_Qlt. change (inject_Z 0) with 0. lra. }
    assert (HcD : (Qceiling (inject_Z D * r) <= D)%Z).
    { pose proof (Qceiling_resp_le _ _ HX1) as Hc. now rewrite Qceiling_Z in Hc. }
    assert (Hle : x <= inject_Z (Qceiling (inject_Z D * r))).
    { apply round53_le_Z; [lra | lia | exact C1]. }
    lra.
Qed.

(** A quotient of a smaller by a larger image-sized integer rounds to less
    than one, and a quotient of a larger by a smaller to at least one. *)
Lemma ratio_below_one D m :
  (0 < m < D)%Z -> (D < 2 ^ 31)%Z -> round53 (inject_Z m / inject_Z D) < 1.
Proof.
  intros [Hm0 HmD] HD.
  assert (Dpos : 0 < inject_Z D) by (apply (inject_Z_lt 0); lia).
  assert (mpos : 0 < inject_Z m) by (apply (inject_Z_lt 0); lia).
  assert (HmD' : inject_Z m <= inject_Z D - 1).
  { rewrite <- inject_Z_pred. apply inject_Z_le. lia. }
  assert (HD' : inject_Z D < 2147483648) by (apply (inject_Z_lt _ (2 ^ 31)); lia).
  assert (N31 : pow2 (-31) == 1 # 2147483648) by reflexivity.
  assert (Ht0 : 0 < inject_Z m / inject_Z D) by (apply Qlt_shift_div_l; lra).
  assert (Hle : inject_Z m / inject_Z D <= inject_Z (2 ^ 31 - 1) * pow2 (-31)).
  { apply Qle_shift_div_r; [exact Dpos |].
    change (inject_Z (2 ^ 31 - 1)) with 2147483647. nra. }
  pose proof (round53_le_exact _ (2 ^ 31 - 1) (-31) (Qlt_le_weak _ _ Ht0) ltac:(lia) Hle) as Hz.
  change (inject_Z (2 ^ 31 - 1)) with 2147483647 in Hz. lra.
Qed.

Lemma ratio_at_least_one D m :
  (0 < D <= m)%Z -> 1 <= round53 (inject_Z m / inject_Z D).
Proof.
  intros [HD HDm].
  assert (Dpos : 0 < inject_Z D) by (apply (inject_Z_lt 0); lia).
  apply inject_Z_le in HDm.
  apply (round53_ge_Z _ 1); [lia |].
  apply Qle_shift_div_l; [exact Dpos |]. change (inject_Z 1) with 1. lra.
Qed.

Lemma ratioOf_pos mw mh W H :
  (0 < W)%Z -> (0 < H)%Z -> (0 < mw)%Z -> (0 < mh)%Z -> 0 < ratioOf mw mh W H.
Proof.
  intros HW HH Hmw Hmh.
  assert (0 < inject_Z W) by (apply (inject_Z_lt 0); lia).
  assert (0 < inject_Z H) by (apply (inject_Z_lt 0); lia).
  assert (0 < inject_Z mw) by (apply (inject_Z_lt 0); lia).
  assert (0 < inject_Z mh) by (apply (inject_Z_lt 0); lia).
  unfold ratioOf.
  destruct (Qle_bool _ _); apply round53_pos, Qlt_shift_div_l; lra.
Qed.

End DimensionFacts.

(** ** The dimension laws *)

Section DimensionLaws.

Import NumberFacts DimensionFacts.
Local Open Scope Q_scope.

Variable file : File.t.




End DimensionLaws.

(** ** The batch driver *)

Section BatchFacts.

Variable host : Host.

Lemma sameSource_refl o : sameSource o o.
Proof. repeat split. Qed.

(** The outcome of [compressImage] does not depend on the world. *)
Lemma compressImage_outcome m file q mw mh fmt w :
  compressImage host m file q mw mh fmt w =
    (logCall file w, (compressImage host m file q mw mh fmt w).2).
Proof.
  unfold compressImage. destruct (loadImage host file) as [[iw ih] |]; reflexivity.
Qed.

Lemma compressImage_outcome_indep m file q mw mh fmt w1 w2 :
  (compressImage host m file q mw mh fmt w1).2 =
  (compressImage host m file q mw mh fmt w2).2.
Proof.
  unfold compressImage. destruct (loadImage host file) as [[iw ih] |]; reflexivity.
Qed.

(** The callback of [images.map], by cases. *)
Lemma compressEntry_unfold s r w :
  compressEntry host s r w =
    match heap w !! r with
    | None => (w, Rejected TypeError)
    | Some o =>
        if present (compressedBlob o) then (w, Resolved r)
        else
          let file := originalFile o in
          match (compressImage host (maintainAspectRatio s) file (quality s)
                   (maxWidth s) (maxHeight s) (outputFormat s) w).2 with
          | Resolved (Some b) =>
              (allocate {| id := id o; originalFile := file;
                           compressedBlob := Some b;
                           originalSize := originalSize o;
                           compressedSize := Some (of_Z (Blob.size b));
                           preview := preview o |} (logCall file w),
               Resolved (length (heap w)))
          | Resolved None => (logCall file w, Rejected TypeError)
          | Rejected e => (logCall file w, Rejected e)
          | Pending => (logCall file w, Pending)
          end
    end.
Proof.
  unfold compressEntry, mbind, Async_bind, deref, mret, Async_ret.
  destruct (heap w !! r) as [o |]; [| reflexivity].
  destruct (present (compressedBlob o)); cbn [negb]; [reflexivity |].
  rewrite compressImage_outcome.
  destruct ((compressImage host _ _ _ _ _ _ w).2) as [[b |] | e |]; reflexivity.
Qed.

(** An entry that has a blob is returned as it is, and nothing else
    happens: no call of [compressImage], no new object. *)
Lemma compressEntry_kept s r w o :
  heap w !! r = Some o -> present (compressedBlob o) = true ->
  compressEntry host s r w = (w, Resolved r).
Proof.
  intros Hr Hb. rewrite compressEntry_unfold, Hr, Hb. reflexivity.
Qed.

Lemma compressEntry_cases s r w w' out :
  compressEntry host s r w = (w', out) ->
  heap w `prefix_of` heap w' /\
  forall r', out = Resolved r' -> entryResult w w' r r'.
Proof.
  rewrite compressEntry_unfold.
  destruct (heap w !! r) as [o |] eqn:Hr.
  2:{ intros [= <- <-]. split; [reflexivity | discriminate]. }
  destruct (present (compressedBlob o)) eqn:Hb.
  { intros [= <- <-]. split; [reflexivity |].
    intros r' [= <-]. exists o.
    split; [exact Hr |]. split; [exact Hb |].
    intros o0 H0. rewrite Hr in H0. injection H0 as <-.
    split; [apply sameSource_refl | left; split; reflexivity]. }
  cbv zeta.
  destruct ((compressImage host _ _ _ _ _ _ w).2) as [[b |] | e |];
    intros [= <- <-]; cbn [heap allocate logCall];
    try (split; [reflexivity | discriminate]).
  split; [now apply prefix_app_r |].
  intros r' [= <-].
  eexists. split; [apply list_lookup_middle; reflexivity |].
  split; [reflexivity |].
  intros o0 H0. rewrite Hr in H0. injection H0 as <-.
  split; [repeat split |].
  right. split; [now destruct (compressedBlob o) |].
  split; [lia |]. exists b. split; reflexivity.
Qed.

Lemma entryResult_weaken w0 w w' w'' r r' :
  heap w0 `prefix_of` heap w -> heap w' `prefix_of` heap w'' ->
  entryResult w w' r r' -> entryResult w0 w'' r r'.
Proof.
  intros P1 P2 (o' & Ho' & Hb & Hsrc).
  exists o'. split; [eapply prefix_lookup_Some; eassumption |].
  split; [exact Hb |].
  intros o Ho.
  destruct (Hsrc o) as [Hs Hcase]; [eapply prefix_lookup_Some; eassumption |].
  split; [exact Hs |].
  destruct Hcase as [? | (? & ? & ?)]; [now left | right].
  split; [assumption |]. split; [| assumption]. apply prefix_length in P1. lia.
Qed.

Lemma Promise_all_cons {A} (p : Async A) ps w :
  Promise_all (p :: ps) w =
    let '(w1, o) := p w in
    let '(w2, os) := Promise_all ps w1 in
    (w2,
     match o, os with
     | Rejected e, _ => Rejected e
     | _, Rejected e => Rejected e
     | Pending, _ | _, Pending => Pending
     | Resolved a, Resolved l => Resolved (a :: l)
     end).
Proof. reflexivity. Qed.

(** The batch only adds objects to the store, and when it resolves, its
    results are the entries' results, in order. *)
Lemma Promise_all_compress s rs :
  forall w w' out,
    Promise_all (map (compressEntry host s) rs) w = (w', out) ->
    heap w `prefix_of` heap w' /\
    forall rs', out = Resolved rs' -> Forall2 (entryResult w w') rs rs'.
Proof.
  induction rs as [| r rs IH]; intros w w' out.
  - intros [= <- <-]. split; [reflexivity |].
    intros rs' [= <-]. constructor.
  - cbn [map]. rewrite Promise_all_cons.
    destruct (compressEntry host s r w) as [w1 o1] eqn:E1.
    destruct (Promise_all (map (compressEntry host s) rs) w1) as [w2 os] eqn:E2.
    intros [= <- <-].
    destruct (compressEntry_cases s r w w1 o1 E1) as [P1 R1].
    destruct (IH w1 w2 os E2) as [P2 R2].
    split; [etrans; eassumption |].
    intros rs' Hres.
    destruct o1 as [a | e | ]; destruct os as [l | e' | ]; try discriminate.
    injection Hres as <-.
    constructor.
    + eapply entryResult_weaken; [reflexivity | exact P2 | now apply R1].
    + eapply Forall2_impl; [now apply R2 |].
      intros x y Hxy. eapply entryResult_weaken; [exact P1 | reflexivity | exact Hxy].
Qed.

(** One entry whose blob comes back [null] rejects the batch, whatever
    the other entries do. *)
Lemma Promise_all_rejected s rs :
  forall w r o,
    r ∈ rs -> heap w !! r = Some o -> compressedBlob o = None ->
    (compressImage host (maintainAspectRatio s) (originalFile o) (quality s)
       (maxWidth s) (maxHeight s) (outputFormat s) w).2 = Resolved None ->
    exists e, (Promise_all (map (compressEntry host s) rs) w).2 = Rejected e.
Proof.
  induction rs as [| r0 rs IH]; intros w r o Hin Hr Hb Hnull.
  - now apply elem_of_nil in Hin.
  - cbn [map]. rewrite Promise_all_cons.
    destruct (compressEntry host s r0 w) as [w1 o1] eqn:E1.
    destruct (Promise_all (map (compressEntry host s) rs) w1) as [w2 os] eqn:E2.
    apply elem_of_cons in Hin as [<- | Hin].
    + rewrite compressEntry_unfold, Hr, Hb in E1. cbn [present] in E1.
      cbv zeta in E1. rewrite Hnull in E1. injection E1 as <- <-.
      exists TypeError. reflexivity.
    + destruct (compressEntry_cases s r0 w w1 o1 E1) as [P1 _].
      destruct (IH w1 r o Hin) as [e He].
      * eapply prefix_lookup_Some; eassumption.
      * exact Hb.
      * now rewrite (compressImage_outcome_indep _ _ _ _ _ _ w1 w).
      * rewrite E2 in He. cbn [snd] in He. subst os.
        destruct o1 as [a | e1 | ]; eexists; reflexivity.
Qed.

(** When every entry has a blob the batch is the identity. *)
Lemma Promise_all_kept s rs :
  forall w,
    Forall (fun r => exists o, heap w !! r = Some o /\ present (compressedBlob o) = true) rs ->
    Promise_all (map (compressEntry host s) rs) w = (w, Resolved rs).
Proof.
  induction rs as [| r rs IH]; intros w Hall.
  - reflexivity.
  - apply Forall_cons in Hall as [(o & Hr & Hb) Hall].
    cbn [map]. rewrite Promise_all_cons.
    rewrite (compressEntry_kept s r w o Hr Hb), (IH w Hall). reflexivity.
Qed.

(** [handleCompress] only adds objects to the store. *)
Lemma handleCompress_store st :
  heap (world st) `prefix_of` heap (world (handleCompress host st)).
Proof.
  unfold handleCompress.
  destruct (Promise_all _ (world st)) as [w out] eqn:E.
  destruct (Promise_all_compress _ _ _ _ _ E) as [P _].
  destruct out; exact P.
Qed.

(** The list after [handleCompress]: the old list, or the entries'
    results in order. *)
Lemma handleCompress_images st :
  let st' := handleCompress host st in
  images st' = images st \/
  Forall2 (entryResult (world st) (world st')) (images st) (images st').
Proof.
  cbv zeta. unfold handleCompress.
  destruct (Promise_all _ (world st)) as [w out] eqn:E.
  destruct (Promise_all_compress _ _ _ _ _ E) as [_ R].
  destruct out as [rs' | e | ]; cbn [images world]; [right | left | left];
    try reflexivity.
  now apply R.
Qed.

End BatchFacts.

(** ** The batch, entry by entry *)

Section BatchVerdict.

Variable host : Host.

Lemma compressImage_transformOutcome s file w :
  (compressImage host (maintainAspectRatio s) file (quality s)
     (maxWidth s) (maxHeight s) (outputFormat s) w).2 = transformOutcome host s file.
Proof.
  unfold compressImage, transformOutcome.
  destruct (loadImage host file) as [[iw ih] |]; reflexivity.
Qed.

Lemma transformOutcome_not_rejected s file e :
  transformOutcome host s file <> Rejected e.
Proof.
  unfold transformOutcome.
  destruct (loadImage host file) as [[iw ih] |]; discriminate.
Qed.

Lemma lookup_valid (h : list CompressedImage) (r : ref) :
  r < length h -> exists o, h !! r = Some o.
Proof. apply lookup_lt_is_Some_2. Qed.

Lemma omap_lookup_cons (h : list CompressedImage) (r : ref) (rs : list ref) o :
  h !! r = Some o ->
  omap (fun r : ref => h !! r) (r :: rs) = o :: omap (fun r : ref => h !! r) rs.
Proof. intros H. cbn. now rewrite H. Qed.

Lemma batchVerdict_cons s o es :
  batchVerdict host s (o :: es) =
    if fails host s o then Rejected TypeError
    else match batchVerdict host s es with
         | Rejected e => Rejected e
         | v => if stalls host s o then Pending else v
         end.
Proof.
  unfold batchVerdict. cbn [existsb].
  destruct (fails host s o), (existsb (fails host s) es),
    (stalls host s o), (existsb (stalls host s) es); reflexivity.
Qed.

Lemma filter_needsWork_cons o es :
  List.filter needsWork (o :: es) =
    if present (compressedBlob o) then List.filter needsWork es
    else o :: List.filter needsWork es.
Proof. unfold needsWork. cbn. now destruct (present (compressedBlob o)). Qed.

(** The batch over references of a store [h] that the current store
    extends: how it ends, and what it records. *)
Lemma Promise_all_verdict s (rs : list ref) :
  forall (h : list CompressedImage) (w : World),
    h `prefix_of` heap w ->
    Forall (fun r : ref => r < length h) rs ->
    let res := Promise_all (map (compressEntry host s) rs) w in
    let es := omap (fun r : ref => h !! r) rs in
    shape res.2 = batchVerdict host s es /\
    h `prefix_of` heap res.1 /\
    transformCalls res.1 =
      transformCalls w ++ map originalFile (List.filter needsWork es) /\
    urls res.1 = urls w + length (List.filter needsWork es) /\
    draws res.1 = draws w.
Proof.
  induction rs as [| r rs IH]; intros h w Hpre Hall; cbv zeta.
  - cbn. rewrite app_nil_r, Nat.add_0_r. repeat split; assumption.
  - apply Forall_cons in Hall as [Hr Hall].
    destruct (lookup_lt_is_Some_2 h r Hr) as [o Ho].
    rewrite (omap_lookup_cons h r rs o Ho).
    assert (Hw : heap w !! r = Some o) by exact (prefix_lookup_Some _ _ _ _ Ho Hpre).
    cbn [map]. rewrite Promise_all_cons.
    rewrite compressEntry_unfold, Hw. cbv beta iota zeta.
    rewrite compressImage_transformOutcome.
    rewrite batchVerdict_cons, filter_needsWork_cons.
    unfold fails, stalls, needsWork.
    destruct (present (compressedBlob o)) eqn:Hb; cbn [negb andb].
    + specialize (IH h w Hpre Hall). cbv zeta in IH.
      destruct (Promise_all (map (compressEntry host s) rs) w) as [w2 os].
      cbn [fst snd] in *. destruct IH as (V & P & C & U & D).
      repeat split; try assumption.
      rewrite <- V. now destruct os.
    + destruct (transformOutcome host s (originalFile o)) as [[b |] | e |] eqn:T.
      * match goal with |- context [Promise_all _ ?w1] =>
          assert (P1 : h `prefix_of` heap w1)
            by (cbn [heap allocate logCall]; now apply prefix_app_r);
          specialize (IH h w1 P1 Hall) end.
        cbv zeta in IH.
        destruct (Promise_all (map (compressEntry host s) rs) _) as [w2 os].
        cbn [fst snd] in *. destruct IH as (V & P & C & U & D).
        cbn [transformCalls urls draws allocate logCall map length] in *.
        rewrite C, U, D, <- app_assoc. cbn [app].
        split; [rewrite <- V; now destruct os |].
        repeat split; try assumption; try reflexivity;
          rewrite ?Nat.add_succ_r; reflexivity.
      * match goal with |- context [Promise_all _ ?w1] =>
          assert (P1 : h `prefix_of` heap w1) by (cbn [heap logCall]; assumption);
          specialize (IH h w1 P1 Hall) end.
        cbv zeta in IH.
        destruct (Promise_all (map (compressEntry host s) rs) _) as [w2 os].
        cbn [fst snd] in *. destruct IH as (_ & P & C & U & D).
        cbn [transformCalls urls draws logCall map length] in *.
        rewrite C, U, D, <- app_assoc. cbn [app].
        split; [reflexivity |].
        repeat split; try assumption; try reflexivity;
          rewrite ?Nat.add_succ_r; reflexivity.
      * exfalso. eapply transformOutcome_not_rejected, T.
      * match goal with |- context [Promise_all _ ?w1] =>
          assert (P1 : h `prefix_of` heap w1) by (cbn [heap logCall]; assumption);
          specialize (IH h w1 P1 Hall) end.
        cbv zeta in IH.
        destruct (Promise_all (map (compressEntry host s) rs) _) as [w2 os].
        cbn [fst snd] in *. destruct IH as (V & P & C & U & D).
        cbn [transformCalls urls draws logCall map length] in *.
        rewrite C, U, D, <- app_assoc. cbn [app].
        split; [rewrite <- V; now destruct os |].
        repeat split; try assumption; try reflexivity;
          rewrite ?Nat.add_succ_r; reflexivity.
Qed.

(** One entry whose invocation does not resolve with a blob keeps the
    batch from resolving, whatever the other entries do. *)
Lemma Promise_all_unfinished s (rs : list ref) :
  forall w (r : ref) o,
    r ∈ rs -> heap w !! r = Some o -> compressedBlob o = None ->
    (forall b, transformOutcome host s (originalFile o) <> Resolved (Some b)) ->
    forall l, (Promise_all (map (compressEntry host s) rs) w).2 <> Resolved l.
Proof.
  induction rs as [| r0 rs IH]; intros w r o Hin Hr Hb Hno l.
  - now apply elem_of_nil in Hin.
  - cbn [map]. rewrite Promise_all_cons.
    destruct (compressEntry host s r0 w) as [w1 o1] eqn:E1.
    destruct (Promise_all (map (compressEntry host s) rs) w1) as [w2 os] eqn:E2.
    cbn [snd].
    apply elem_of_cons in Hin as [<- | Hin].
    + rewrite compressEntry_unfold, Hr, Hb in E1. cbn [present] in E1.
      cbv zeta in E1. rewrite compressImage_transformOutcome in E1.
      destruct (transformOutcome host s (originalFile o)) as [[b |] | e |] eqn:T.
      * now destruct (Hno b).
      * injection E1 as <- <-. discriminate.
      * injection E1 as <- <-. discriminate.
      * injection E1 as <- <-. now destruct os.
    + destruct (compressEntry_cases host s r0 w w1 o1 E1) as [P1 _].
      assert (Hr1 : heap w1 !! r = Some o)
        by exact (prefix_lookup_Some _ _ _ _ Hr P1).
      pose proof (IH w1 r o Hin Hr1 Hb Hno) as Hrest.
      rewrite E2 in Hrest. cbn [snd] in Hrest.
      destruct o1 as [a | e1 |]; destruct os as [l' | e' |]; try discriminate.
      intros _. now apply (Hrest l').
Qed.

End BatchVerdict.

(** ** The claims about the batch *)

Section BatchLaws.

Variable host : Host.

(** C4 (partial-failure isolation), as the code has it.  One invocation
    that does not resolve with a blob is not isolated from its siblings:
    be it that its blob comes back [null] or that its image never loads,
    [handleCompress] keeps the image list and every object of it as they
    were, so no entry receives a result, and never reports success.  With
    a [null] blob it shows one error notice for the batch and ends
    processing; when no blob of the batch comes back [null], it shows
    nothing and processing never ends. *)
Theorem batch_all_or_nothing (st : State) (i : nat) (r : ref) (o : CompressedImage) :
  images st !! i = Some r ->
  heap (world st) !! r = Some o ->
  compressedBlob o = None ->
  (forall blob,
     (compressImage host (maintainAspectRatio (settings st)) (originalFile o)
        (quality (settings st)) (maxWidth (settings st)) (maxHeight (settings st))
        (outputFormat (settings st)) (world st)).2 <> Resolved (Some blob)) ->
  let st' := handleCompress host st in
  images st' = images st /\
  (forall r0 o0, heap (world st) !! r0 = Some o0 -> heap (world st') !! r0 = Some o0) /\
  (toasts st' = toasts st ++ [ToastError] /\ isProcessing st' = false \/
   toasts st' = toasts st /\ isProcessing st' = true) /\
  ((compressImage host (maintainAspectRatio (settings st)) (originalFile o)
      (quality (settings st)) (maxWidth (settings st)) (maxHeight (settings st))
      (outputFormat (settings st)) (world st)).2 = Resolved None ->
   toasts st' = toasts st ++ [ToastError] /\ isProcessing st' = false) /\
  (wellFormed st ->
   existsb (fails host (settings st)) (entries st) = false ->
   toasts st' = toasts st /\ isProcessing st' = true).
Proof.
  intros Hi Hr Hb Hno. cbv zeta.
  assert (Hin : r ∈ images st) by exact (list_elem_of_lookup_2 _ _ _ Hi).
  assert (Hno' : forall b,
             transformOutcome host (settings st) (originalFile o) <> Resolved (Some b)).
  { intros b. rewrite <- (compressImage_transformOutcome host _ _ (world st)). apply Hno. }
  pose proof (Promise_all_unfinished host (settings st) (images st) (world st) r o
                Hin Hr Hb Hno') as Hun.
  split; [| split; [| split; [| split]]].
  - unfold handleCompress.
    destruct (Promise_all _ (world st)) as [w out]. cbn [snd] in Hun.
    destruct out as [l | e |]; [now destruct (Hun l) | reflexivity | reflexivity].
  - intros r0 o0 H0. eapply prefix_lookup_Some; [exact H0 |].
    apply handleCompress_store.
  - unfold handleCompress.
    destruct (Promise_all _ (world st)) as [w out]. cbn [snd] in Hun.
    destruct out as [l | e |]; [now destruct (Hun l) | left | right];
      split; reflexivity.
  - intros Hnull.
    destruct (Promise_all_rejected host (settings st) (images st) (world st) r o
                Hin Hr Hb Hnull) as [e He].
    unfold handleCompress.
    destruct (Promise_all _ (world st)) as [w out]. cbn [snd] in He. subst out.
    split; reflexivity.
  - intros Hwf Hfails.
    destruct (Promise_all_verdict host (settings st) (images st)
                (heap (world st)) (world st) (reflexivity _) Hwf) as (V & _).
    fold (entries st) in V. unfold batchVerdict in V. rewrite Hfails in V.
    assert (Ho : In o (entries st)).
    { apply list_elem_of_In, list_elem_of_omap. exists r. split; assumption. }
    assert (Hs : existsb (stalls host (settings st)) (entries st) = true).
    { apply existsb_exists. exists o. split; [exact Ho |].
      unfold stalls, needsWork. rewrite Hb. cbn [present negb andb].
      destruct (transformOutcome host (settings st) (originalFile o))
        as [[b |] | e |] eqn:T.
      - now destruct (Hno' b).
      - exfalso.
        assert (F : existsb (fails host (settings st)) (entries st) = true).
        { apply existsb_exists. exists o. split; [exact Ho |].
          unfold fails, needsWork. rewrite Hb, T. reflexivity. }
        congruence.
      - exfalso. eapply transformOutcome_not_rejected, T.
      - reflexivity. }
    rewrite Hs in V. unfold handleCompress.
    destruct (Promise_all _ (world st)) as [w out]. cbn [snd] in V.
    destruct out; try discriminate. split; reflexivity.
Qed.

(** C8 (no mutation in place).  [handleCompress] changes no object of the
    store; the entry at each index of the new list has the [id],
    [originalFile], [originalSize] and [preview] of the old one, and it is
    either the old object itself or an object that did not exist before,
    made for an entry without a blob, with the blob and its size attached
    as [compressedBlob] and [compressedSize]. *)
Theorem handleCompress_never_mutates (st : State) :
  let st' := handleCompress host st in
  (forall r o, heap (world st) !! r = Some o -> heap (world st') !! r = Some o) /\
  (forall i r o,
      images st !! i = Some r -> heap (world st) !! r = Some o ->
      exists r' o',
        images st' !! i = Some r' /\ heap (world st') !! r' = Some o' /\
        sameSource o o' /\
        (r' = r /\ o' = o \/
         compressedBlob o = None /\ length (heap (world st)) <= r' /\ attached o')).
Proof.
  cbv zeta.
  pose proof (handleCompress_store host st) as P.
  split; [intros r o Hr; eapply prefix_lookup_Some; eassumption |].
  intros i r o Hi Hr.
  destruct (handleCompress_images host st) as [Same | New].
  - exists r, o. rewrite Same.
    split; [exact Hi |]. split; [eapply prefix_lookup_Some; eassumption |].
    split; [apply sameSource_refl | left; split; reflexivity].
  - destruct (Forall2_lookup_l _ _ _ _ _ New Hi) as (r' & Hi' & o' & Ho' & _ & Hsrc).
    destruct (Hsrc o Hr) as [Hs Hcase].
    exists r', o'. split; [exact Hi' |]. split; [exact Ho' |]. split; assumption.
Qed.

(** C10 (already-compressed entries).  For an entry that has a blob the
    callback of [handleCompress] returns the entry itself and leaves the
    world as it is, so [compressImage] is not called for it; after
    [handleCompress], under any settings, the list holds the same
    reference at that index and the object is unchanged. *)
Theorem handleCompress_keeps_compressed
    (st : State) (s : Settings) (i : nat) (r : ref) (o : CompressedImage) :
  images st !! i = Some r ->
  heap (world st) !! r = Some o ->
  present (compressedBlob o) = true ->
  let st' := handleCompress host (changeSettings s st) in
  (forall w, heap w !! r = Some o -> compressEntry host s r w = (w, Resolved r)) /\
  images st' !! i = Some r /\
  heap (world st') !! r = Some o.
Proof.
  intros Hi Hr Hb. cbv zeta.
  split; [intros w Hw; now apply compressEntry_kept with o |].
  pose proof (handleCompress_store host (changeSettings s st)) as P.
  split; [| eapply prefix_lookup_Some; eassumption].
  destruct (handleCompress_images host (changeSettings s st)) as [Same | New].
  - rewrite Same. exact Hi.
  - destruct (Forall2_lookup_l _ _ _ _ _ New Hi) as (r' & Hi' & o' & _ & _ & Hsrc).
    destruct (Hsrc o Hr) as [_ [[-> _] | (Hnone & _)]]; [exact Hi' |].
    rewrite Hnone in Hb. discriminate.
Qed.

(** Once every entry has a blob, [handleCompress] changes neither the
    world nor the list: a second run is the identity on them. *)
Lemma handleCompress_idle (st : State) :
  Forall (fun r => exists o, heap (world st) !! r = Some o /\
                             present (compressedBlob o) = true) (images st) ->
  world (handleCompress host st) = world st /\
  images (handleCompress host st) = images st.
Proof.
  intros Hall. unfold handleCompress.
  rewrite (Promise_all_kept host _ _ _ Hall). split; reflexivity.
Qed.

(** After a run that ended with the success notice every entry has a blob,
    so a second run, under any settings, changes neither the world nor the
    list. *)
Lemma handleCompress_twice (st : State) (s : Settings) (n : nat) :
  toasts (handleCompress host st) = toasts st ++ [ToastDone n] ->
  let st1 := handleCompress host st in
  let st2 := handleCompress host (changeSettings s st1) in
  world st2 = world st1 /\ images st2 = images st1.
Proof.
  intros Hdone. cbv zeta.
  refine (handleCompress_idle (changeSettings s (handleCompress host st)) _).
  cbn [changeSettings world images].
  revert Hdone. unfold handleCompress.
  destruct (Promise_all _ (world st)) as [w [rs | e | ]] eqn:E;
    cbn [toasts images world]; intros Hdone.
  - destruct (Promise_all_compress host _ _ _ _ _ E) as [_ R].
    specialize (R rs eq_refl). clear - R.
    induction R as [| r r' rs0 rs' (o' & Ho' & Hb & _) _ IH];
      constructor; [exists o'; split; assumption | exact IH].
  - apply app_inv_head in Hdone. discriminate.
  - apply (f_equal length) in Hdone. rewrite length_app in Hdone.
    cbn in Hdone. lia.
Qed.

End BatchLaws.

(** ** The transform's failures *)

Section FailureLaws.

Import NumberFacts DimensionFacts.

Variable host : Host.

(** A bound of zero leaves a canvas without pixels, in both modes. *)
Lemma renderCanvas_zero_area m file (W H mw mh : Z) :
  (0 < W)%Z -> (0 < H)%Z -> (0 <= mw)%Z -> (0 <= mh)%Z -> (mw = 0 \/ mh = 0)%Z ->
  let c := renderCanvas m (of_Z mw) (of_Z mh) file W H in
  canvas_width c = 0%Z \/ canvas_height c = 0%Z.
Proof.
  intros HW HH Hmw Hmh Hzero. cbv zeta. unfold renderCanvas.
  destruct m.
  - rewrite targetDimensions_aspect by lia. cbv zeta.
    assert (Wpos : (0 < inject_Z W)%Q) by (apply (inject_Z_lt 0); lia).
    assert (Hpos : (0 < inject_Z H)%Q) by (apply (inject_Z_lt 0); lia).
    assert (mw0 : (0 <= inject_Z mw)%Q) by now apply (inject_Z_le 0).
    assert (mh0 : (0 <= inject_Z mh)%Q) by now apply (inject_Z_le 0).
    pose proof (ratioOf_min mw mh W H) as (Hrw & Hrh & Hr).
    assert (Rw : (0 <= round53 (inject_Z mw / inject_Z W))%Q).
    { apply round53_nonneg, Qle_shift_div_l; lra. }
    assert (Rh : (0 <= round53 (inject_Z mh / inject_Z H))%Q).
    { apply round53_nonneg, Qle_shift_div_l; lra. }
    set (r := ratioOf mw mh W H) in *.
    assert (Hr0 : (r == 0)%Q).
    { destruct Hzero as [-> | ->].
      - rewrite (round53_0_eq (inject_Z 0 / inject_Z W)) in Hrw
          by (change (inject_Z 0) with 0%Q; field; lra).
        destruct Hr as [E | E]; lra.
      - rewrite (round53_0_eq (inject_Z 0 / inject_Z H)) in Hrh
          by (change (inject_Z 0) with 0%Q; field; lra).
        destruct Hr as [E | E]; lra. }
    assert (E : Qle_bool 1 r = false).
    { destruct (Qle_bool 1 r) eqn:X; [| reflexivity].
      apply Qle_bool_iff in X. lra. }
    rewrite E. cbn [canvas_width canvas_height].
    left. rewrite round53_0_eq by (rewrite Hr0; ring). reflexivity.
  - unfold targetDimensions. cbn [canvas_width canvas_height].
    destruct Hzero as [-> | ->]; [left | right]; reflexivity.
Qed.

(** C5 (failures of the transform), as the code has it.  The promise of
    [compressImage] is never rejected: no input makes it fail with an
    error.  In the specification's failure cases it yields no blob
    either: none for a source that does not decode, and [null] for a
    source that decodes when [maxWidth] or [maxHeight] is 0. *)
Theorem compressImage_never_fails
    (m : bool) (file : File.t) (q maxW maxH : number) (fmt : string) (w : World) :
  let out := (compressImage host m file q maxW maxH fmt w).2 in
  (forall e, out <> Rejected e) /\
  (loadImage host file = None -> forall b, out <> Resolved (Some b)) /\
  (forall W H mw mh : Z,
      loadImage host file = Some (W, H) -> (0 < W)%Z -> (0 < H)%Z ->
      maxW = of_Z mw -> maxH = of_Z mh ->
      (0 <= mw)%Z -> (0 <= mh)%Z -> (mw = 0 \/ mh = 0)%Z ->
      out = Resolved None).
Proof.
  cbv zeta. unfold compressImage.
  destruct (loadImage host file) as [[iw ih] |] eqn:L; cbn [snd].
  - split; [discriminate |]. split; [discriminate |].
    intros W H mw mh [= <- <-] HW HH -> -> Hmw Hmh Hzero.
    f_equal. unfold onload, toBlob.
    destruct (renderCanvas_zero_area m file iw ih mw mh HW HH Hmw Hmh Hzero) as [E | E];
      rewrite E; [reflexivity |].
    now rewrite orb_true_r.
  - split; [discriminate |]. split; [discriminate |]. discriminate.
Qed.

End FailureLaws.

(** ** Savings, download names and uploads *)

Section PresentationLaws.

Variable host : Host.

(** C6 (savings computation), as the code has it.  For a compressed size
    that is truthy (neither 0 nor NaN) [calculateSavings] is the
    specification's formula; it is 0 when the compressed size is absent,
    and 0 as well when it is 0. *)
Theorem calculateSavings_formula (original compressed : number) :
  (truthy compressed = true ->
   calculateSavings original (Some compressed) = savingsFormula original compressed) /\
  (truthy compressed = false ->
   calculateSavings original (Some compressed) = of_Z 0) /\
  calculateSavings original None = of_Z 0.
Proof.
  unfold calculateSavings, savingsFormula.
  repeat split; intros ->; reflexivity.
Qed.

(** *** Download names *)

Lemma split_piece s rest :
  hasDot s = false ->
  split "." (s ++ String "." rest) = s :: split "." rest.
Proof.
  induction s as [| c s IH]; cbn; [reflexivity |].
  intros H. apply orb_false_iff in H as [Hc Hs].
  rewrite Hc, (IH Hs). reflexivity.
Qed.

Lemma split_no_dot s : hasDot s = false -> split "." s = [s].
Proof.
  induction s as [| c s IH]; cbn; [reflexivity |].
  intros H. apply orb_false_iff in H as [Hc Hs].
  rewrite Hc, (IH Hs). reflexivity.
Qed.

(** The name offered for download keeps what precedes the first full stop
    of the file name. *)
Lemma downloadName_first_dot s rest fmt :
  hasDot s = false ->
  downloadName (s ++ String "." rest) fmt = ("compressed_" ++ s ++ "." ++ fmt)%string.
Proof.
  intros H. unfold downloadName. now rewrite split_piece.
Qed.

(** For a name with one full stop this is the stem. *)
Lemma downloadName_one_dot s ext fmt :
  hasDot s = false -> hasDot ext = false ->
  downloadName (s ++ String "." ext) fmt = specDownloadName (s ++ String "." ext) fmt.
Proof.
  intros Hs He. rewrite downloadName_first_dot by assumption.
  unfold specDownloadName, stem.
  rewrite split_piece, split_no_dot by assumption. reflexivity.
Qed.

(** C7 (download file name), evaluated on the name [photo.final.jpg]: the
    code offers [compressed_photo.jpeg], the stem with the final extension
    removed would give [compressed_photo.final.jpeg]. *)
Theorem download_name_two_dots :
  let st := Demo.initial Demo.defaults in
  downloads (handleDownload Demo.twoDots st) =
    [("compressed_photo.jpeg"%string,
      {| Blob.size := 100; Blob.type := "image/jpeg" |})] /\
  specDownloadName "photo.final.jpg" "jpeg" = "compressed_photo.final.jpeg"%string.
Proof. split; reflexivity. Qed.

(** *** Uploads *)

(** C9 (uploads).  After a file-upload event the store has one new entry
    for each file whose type starts with [image/], in the files' order,
    the list has their references appended in that order, each entry has
    the file's size as [originalSize] and no compressed result, and
    nothing is reported for the other files. *)
Theorem handleFileUpload_appends (files : list File.t) (st : State) :
  let st' := handleFileUpload host files st in
  exists entries : list CompressedImage,
    heap (world st') = heap (world st) ++ entries /\
    images st' = images st ++ seq (length (heap (world st))) (length entries) /\
    map originalFile entries = accepted files /\
    Forall (fun o => originalSize o = of_Z (File.size (originalFile o)) /\
                     compressedBlob o = None /\ compressedSize o = None) entries /\
    toasts st' = toasts st.
Proof.
  revert st. induction files as [| f files IH]; intros st; cbv zeta.
  - exists []. cbn. rewrite !app_nil_r. repeat split. constructor.
  - cbn [handleFileUpload fold_left accepted List.filter].
    fold (handleFileUpload host files (addFile host st f)).
    destruct (IH (addFile host st f)) as (entries & Hheap & Himg & Hfiles & Hall & Htoast).
    unfold addFile in *.
    destruct (String.prefix "image/" (File.type f)) eqn:Hty.
    + cbn [world heap images toasts] in *.
      eexists (_ :: entries).
      rewrite Hheap, Himg, Htoast, <- !app_assoc. cbn [app length seq map].
      rewrite length_app, Nat.add_1_r. cbn [length].
      repeat split; try reflexivity.
      * f_equal. exact Hfiles.
      * constructor; [repeat split | exact Hall].
    + exists entries. repeat split; assumption.
Qed.

End PresentationLaws.

(** ** Instances on the sample data *)

Section Instances.

Import Demo.
Local Open Scope Z_scope.

(** The specification's scenarios (section 8). *)
Example scenario_4000x2000 :
  renderCanvas true (of_Z 1920) (of_Z 1080) first 4000 2000 =
    {| canvas_width := 1920; canvas_height := 960;
       drawn := (first, of_Z 1920, of_Z 960) |}.
Proof. reflexivity. Qed.

Example scenario_800x600 :
  renderCanvas true (of_Z 1920) (of_Z 1080) first 800 600 =
    {| canvas_width := 800; canvas_height := 600;
       drawn := (first, of_Z 800, of_Z 600) |}.
Proof. reflexivity. Qed.

Example scenario_stretch :
  renderCanvas false (of_Z 500) (of_Z 500) first 800 600 =
    {| canvas_width := 500; canvas_height := 500;
       drawn := (first, of_Z 500, of_Z 500) |}.
Proof. reflexivity. Qed.

(** Rounding shows: [49 * (1 / 49)] is the binary64 number below one, and
    the canvas of a 49x49 source under bounds of one pixel has no pixel. *)
Example scenario_49 :
  mul (of_Z 49) (div (of_Z 1) (of_Z 49)) =
    Finite (9007199254740991 # 9007199254740992) /\
  canvas_width (renderCanvas true (of_Z 1) (of_Z 1) first 49 49) = 0.
Proof. split; reflexivity. Qed.

(** On all ratios of integers up to 120, and on the sizes of the
    scenarios, [round53] computes what the kernel's binary64 division and
    multiplication compute. *)
Example round53_is_binary64 :
  forallb (fun m => forallb (Binary64.ratioAgrees m) (Binary64.upTo 120))
    (Binary64.upTo 120) = true /\
  forallb (fun m => forallb (Binary64.ratioAgrees m) [4000; 2000; 3000; 2448; 1333])
    [1920; 1080; 1; 100; 4000] = true /\
  forallb (fun a => forallb (fun b => Binary64.savingsAgrees a b) (Binary64.upTo 60))
    [200; 1000; 1024; 123457] = true.
Proof. vm_compute. repeat split. Qed.


(** The bounds of the dimension law are integers, as the settings form
    has them.  For a bound that is not, rounding can reach the next
    integer: [maxWidth = 101 - 2^-46] is a binary64 number, and a source
    143 pixels wide gets a canvas 101 pixels wide. *)
Example bound_below_an_integer :
  let maxWidth := (101 - (1 # 70368744177664))%Q in
  round53 maxWidth = maxWidth /\
  canvas_width (renderCanvas true (Finite maxWidth) (of_Z 4000) first 143 100) = 101.
Proof. split; reflexivity. Qed.



(** C4, the specification's scenario: of three sources the second does
    not decode.  [handleCompress] then stores no result at all and
    reports nothing, and processing never ends. *)
Lemma corrupt_source_stalls_batch :
  let st' := handleCompress browser (batch defaults) in
  loadImage browser corrupt = None /\
  length (images st') = 3%nat /\
  compressedCount st' = 0%nat /\
  errorNotices st' = 0%nat /\
  isProcessing st' = true /\
  ~ (compressedCount st' = 2%nat /\ errorNotices st' = 1%nat).
Proof.
  cbv zeta. repeat split; try reflexivity.
  intros [H _]. vm_compute in H. discriminate.
Qed.

Lemma batch_all_or_nothing_witness :
  let st := batch defaults in
  let st' := handleCompress browser st in
  (forall blob,
     (compressImage browser true corrupt (of_Z 80) (of_Z 1920) (of_Z 1080) "jpeg"
        (world st)).2 <> Resolved (Some blob)) /\
  images st' = images st /\
  (forall r0 o0, heap (world st) !! r0 = Some o0 -> heap (world st') !! r0 = Some o0) /\
  toasts st' = toasts st /\ isProcessing st' = true.
Proof.
  cbv zeta.
  assert (Hno : forall blob,
             (compressImage browser true corrupt (of_Z 80) (of_Z 1920) (of_Z 1080)
                "jpeg" (world (batch defaults))).2 <> Resolved (Some blob))
    by (intros blob; vm_compute; discriminate).
  assert (Hf : existsb (fails browser (settings (batch defaults)))
                 (entries (batch defaults)) = false) by (vm_compute; reflexivity).
  assert (Hwf : wellFormed (batch defaults))
    by (unfold wellFormed; vm_compute; repeat constructor).
  destruct (batch_all_or_nothing browser (batch defaults) 1%nat 1%nat
              {| id := "bid"; originalFile := corrupt; compressedBlob := None;
                 originalSize := of_Z 1000; compressedSize := None;
                 preview := "burl" |}
              eq_refl eq_refl eq_refl Hno) as (Hi & Hh & _ & _ & Hp).
  split; [exact Hno |]. split; [exact Hi |]. split; [exact Hh |].
  exact (Hp Hwf Hf).
Defined.

Example picky_batch_counts :
  compressedCount (handleCompress picky pickyBatch) = 0%nat /\
  errorNotices (handleCompress picky pickyBatch) = 1%nat.
Proof. split; reflexivity. Qed.

(** C5: the source that does not decode leaves the promise pending, and a
    bound of zero resolves it with [null]; neither fails. *)
Lemma no_error_is_raised :
  let w := world (initial defaults) in
  let undecodable :=
    (compressImage browser true corrupt (of_Z 80) (of_Z 1920) (of_Z 1080) "jpeg" w).2 in
  let zeroArea :=
    (compressImage browser true first (of_Z 80) (of_Z 0) (of_Z 1080) "jpeg" w).2 in
  loadImage browser corrupt = None /\
  undecodable = Pending /\ (~ exists e, undecodable = Rejected e) /\
  zeroArea = Resolved None /\ (~ exists e, zeroArea = Rejected e).
Proof.
  cbv zeta. repeat split; try reflexivity; intros [e H]; vm_compute in H; discriminate.
Qed.

(** C6: a compressed size of 0 is taken for an absent one. *)
Lemma savings_of_empty_result :
  calculateSavings (of_Z 100) (Some (of_Z 0)) = of_Z 0 /\
  savingsFormula (of_Z 100) (of_Z 0) = of_Z 100 /\
  calculateSavings (of_Z 100) (Some (of_Z 0)) <> savingsFormula (of_Z 100) (of_Z 0).
Proof. repeat split. intros H. vm_compute in H. discriminate. Qed.

Example savings_sample :
  calculateSavings (of_Z 1000) (Some (of_Z 100)) = of_Z 90 /\
  calculateSavings (of_Z 1000) None = of_Z 0.
Proof. split; reflexivity. Qed.

(** The formula is evaluated in binary64, in the code and in the
    specification's reading of it alike: [(200 - 171) / 200 * 100] is
    14.499999999999998, which rounds to 14. *)
Example savings_in_binary64 :
  mul (div (sub (of_Z 200) (of_Z 171)) (of_Z 200)) (of_Z 100) =
    Finite (8162774324609023 # 562949953421312) /\
  calculateSavings (of_Z 200) (Some (of_Z 171)) = of_Z 14.
Proof. split; reflexivity. Qed.

Lemma handleCompress_keeps_compressed_witness :
  let st' := handleCompress browser (changeSettings otherSettings compressedPair) in
  (images compressedPair !! 0%nat = Some 2%nat /\
   heap (world compressedPair) !! 2%nat = Some firstCompressed) /\
  (forall w, heap w !! 2%nat = Some firstCompressed ->
             compressEntry browser otherSettings 2%nat w = (w, Resolved 2%nat)) /\
  images st' !! 0%nat = Some 2%nat /\
  heap (world st') !! 2%nat = Some firstCompressed.
Proof.
  assert (H1 : images compressedPair !! 0%nat = Some 2%nat)
    by (vm_compute; reflexivity).
  assert (H2 : heap (world compressedPair) !! 2%nat = Some firstCompressed)
    by (vm_compute; reflexivity).
  split; [split; assumption |].
  exact (handleCompress_keeps_compressed browser compressedPair otherSettings
           0%nat 2%nat firstCompressed H1 H2 eq_refl).
Defined.

Example compress_sample :
  let st := handleFileUpload browser [first; third] (initial defaults) in
  let st' := handleCompress browser st in
  images st = [0%nat; 1%nat] /\ images st' = [2%nat; 3%nat] /\
  take 2 (heap (world st')) = heap (world st) /\
  heap (world st') !! 2%nat = Some firstCompressed /\
  transformCalls (world st') = [first; third] /\
  toasts st' = [ToastDone 2].
Proof. cbv zeta. vm_compute. repeat split. Qed.

Example second_run_is_idle :
  let st' := handleCompress browser (changeSettings otherSettings compressedPair) in
  world st' = world compressedPair /\ images st' = images compressedPair /\
  compressedCount st' = 2%nat.
Proof. cbv zeta. vm_compute. repeat split. Qed.

Example upload_sample :
  let st := handleFileUpload browser [first; notes; third] (initial defaults) in
  images st = [0%nat; 1%nat] /\
  map originalFile (heap (world st)) = [first; third].
Proof. split; reflexivity. Qed.

End Instances.


(** * Further properties of the component *)

(** ** Scaling fills the bounds *)

Section ScalingFacts.

Import NumberFacts DimensionFacts.
Local Open Scope Q_scope.

Variable file : File.t.

(** The other side of [scale_back]: the product is not more than [2^-9]
    below the dividend. *)
Lemma scale_back_lower D m r :
  (0 < m < D)%Z -> (D < 2 ^ 31)%Z ->
  round53 (inject_Z m / inject_Z D) <= r ->
  inject_Z m - pow2 (-9) <= round53 (inject_Z D * r).
Proof.
  intros [Hm0 HmD] HD Hr.
  assert (Dpos : 0 < inject_Z D) by (apply (inject_Z_lt 0); lia).
  assert (m1 : 1 <= inject_Z m) by (apply (inject_Z_le 1); lia).
  assert (HmD' : inject_Z m < inject_Z D) by now apply inject_Z_lt.
  assert (HD' : inject_Z D < 2147483648) by (apply (inject_Z_lt _ (2 ^ 31)); lia).
  set (t := inject_Z m / inject_Z D) in *.
  assert (Ht : t * inject_Z D == inject_Z m) by (unfold t; field; lra).
  assert (Ht0 : 0 < t) by (apply Qlt_shift_div_l; lra).
  assert (Ht1 : t < 1) by (apply Qlt_shift_div_r; lra).
  assert (P40 : pow2 40 == 1099511627776) by reflexivity.
  assert (N40 : pow2 (-40) == 1 # 1099511627776) by reflexivity.
  assert (N9 : pow2 (-9) == 1 # 512) by reflexivity.
  set (K := Qfloor (t * pow2 40)).
  pose proof (Qfloor_le (t * pow2 40)) as K1.
  pose proof (Qlt_floor (t * pow2 40)) as K2. fold K in K1, K2.
  rewrite inject_Z_succ in K2.
  assert (HK : (0 < K < 2 ^ 53)%Z).
  { split.
    - rewrite Zlt_Qlt. change (inject_Z 0) with 0. nra.
    - assert (inject_Z K < inject_Z (2 ^ 41)); [| rewrite <- Zlt_Qlt in *; lia].
      change (inject_Z (2 ^ 41)) with 2199023255552. nra. }
  assert (Hy : inject_Z K * pow2 (-40) <= round53 t).
  { apply round53_ge_exact; [exact HK | nra]. }
  assert (HX : inject_Z (m * 2 ^ 9 - 1) * pow2 (-9) <= inject_Z D * r).
  { rewrite inject_Z_pred, inject_Z_mult.
    change (inject_Z (2 ^ 9)) with 512.
    assert (inject_Z D * (inject_Z K * pow2 (-40)) <= inject_Z D * r) by nra.
    nra. }
  assert (Hk : (0 < m * 2 ^ 9 - 1 < 2 ^ 53)%Z) by lia.
  pose proof (round53_ge_exact (inject_Z D * r) _ (-9) Hk HX) as Hz.
  rewrite inject_Z_pred, inject_Z_mult in Hz.
  change (inject_Z (2 ^ 9)) with 512 in Hz.
  nra.
Qed.

(** X11.  When the source exceeds a bound and the aspect ratio is kept,
    the canvas reaches one of the bounds, up to the one pixel that
    rounding can cost: its width is [maxWidth] or [maxWidth - 1], or its
    height is [maxHeight] or [maxHeight - 1]. *)
Theorem downscale_fills_a_bound (W H mw mh : Z) :
  (0 < W < 2 ^ 31)%Z -> (0 < H < 2 ^ 31)%Z ->
  (0 < mw)%Z -> (0 < mh)%Z ->
  (mw < W \/ mh < H)%Z ->
  let c := renderCanvas true (of_Z mw) (of_Z mh) file W H in
  (mw - 1 <= canvas_width c <= mw)%Z \/ (mh - 1 <= canvas_height c <= mh)%Z.
Proof.
  intros HW HH Hmw Hmh Hover. cbv zeta. unfold renderCanvas.
  rewrite targetDimensions_aspect by lia. cbv zeta.
  pose proof (ratioOf_min mw mh W H) as (Hrw & Hrh & Hr).
  pose proof (ratioOf_pos mw mh W H ltac:(lia) ltac:(lia) ltac:(lia) ltac:(lia)) as Hr0.
  set (r := ratioOf mw mh W H) in *.
  assert (Hr1 : r < 1).
  { destruct Hover as [Hlt | Hlt].
    - pose proof (ratio_below_one W mw ltac:(lia) ltac:(lia)). lra.
    - pose proof (ratio_below_one H mh ltac:(lia) ltac:(lia)). lra. }
  assert (E : Qle_bool 1 r = false).
  { destruct (Qle_bool 1 r) eqn:X; [| reflexivity]. apply Qle_bool_iff in X. lra. }
  rewrite E. cbn [canvas_width canvas_height].
  destruct (scaled_dimension W mw r HW Hmw Hr0 Hr1 Hrw) as (w0 & w1 & w2 & _).
  destruct (scaled_dimension H mh r HH Hmh Hr0 Hr1 Hrh) as (h0 & h1 & h2 & _).
  rewrite !setCanvasDimension_finite by assumption.
  assert (N9 : pow2 (-9) == 1 # 512) by reflexivity.
  destruct Hr as [Er | Er]; [left | right]; (split; [| assumption]).
  - assert (mw < W)%Z.
    { destruct (Z_lt_le_dec mw W) as [? | Hge]; [assumption | exfalso].
      pose proof (ratio_at_least_one W mw ltac:(lia)). lra. }
    pose proof (scale_back_lower W mw r ltac:(lia) ltac:(lia) ltac:(lra)) as Hlow.
    apply Qfloor_ge_Z. rewrite inject_Z_pred. lra.
  - assert (mh < H)%Z.
    { destruct (Z_lt_le_dec mh H) as [? | Hge]; [assumption | exfalso].
      pose proof (ratio_at_least_one H mh ltac:(lia)). lra. }
    pose proof (scale_back_lower H mh r ltac:(lia) ltac:(lia) ltac:(lra)) as Hlow.
    apply Qfloor_ge_Z. rewrite inject_Z_pred. lra.
Qed.

End ScalingFacts.

(** ** The range of the savings *)

Section SavingsFacts.

Import NumberFacts DimensionFacts.
Local Open Scope Q_scope.

Lemma round53_nonpos q : q <= 0 -> round53 q <= 0.
Proof.
  intros Hq. unfold round53.
  destruct (Qeq_bool q 0); [lra |].
  rewrite Qred_correct.
  set (e := (ilog2 (Qabs q) - 52)%Z).
  pose proof (pow2_pos e) as Pe.
  assert (Hs : q / pow2 e <= inject_Z 0).
  { change (inject_Z 0) with 0. apply Qle_shift_div_r; lra. }
  apply nearest_even_mono in Hs. rewrite nearest_even_Z in Hs.
  apply inject_Z_le in Hs. change (inject_Z 0) with 0 in Hs. nra.
Qed.

(** X12.  For sizes of whole bytes below 2^53, which are numbers of the
    code as they stand, the percentage [calculateSavings] shows is a whole
    number: between 0 and 100 when the result is not larger than the
    original, and not above 0 when it is not smaller (the value is not
    clamped).  Every intermediate value is then of magnitude below 2^60
    and, unless zero, at least 2^-53, where binary64 has its full 53
    bits. *)
Theorem calculateSavings_range (original compressed : Z) :
  (0 < original < 2 ^ 53)%Z -> (0 < compressed < 2 ^ 53)%Z ->
  exists percent : Z,
    calculateSavings (of_Z original) (Some (of_Z compressed)) = of_Z percent /\
    (compressed <= original -> 0 <= percent <= 100)%Z /\
    (original <= compressed -> percent <= 0)%Z.
Proof.
  intros [Ho0 Ho1] [Hc Hc1].
  assert (opos : 0 < inject_Z original) by (apply (inject_Z_lt 0); lia).
  assert (cpos : 0 < inject_Z compressed) by (apply (inject_Z_lt 0); lia).
  unfold calculateSavings, of_Z, truthy, sub, div, mul, round.
  assert (Ec : Qeq_bool (inject_Z compressed) 0 = false).
  { destruct (Qeq_bool (inject_Z compressed) 0) eqn:X; [| reflexivity].
    apply Qeq_bool_iff in X. lra. }
  assert (Eo : Qeq_bool (inject_Z original) 0 = false).
  { destruct (Qeq_bool (inject_Z original) 0) eqn:X; [| reflexivity].
    apply Qeq_bool_iff in X. lra. }
  rewrite Ec, Eo. cbn [negb].
  set (d := round53 (inject_Z original - inject_Z compressed)).
  set (q := round53 (d / inject_Z original)).
  set (p := round53 (q * inject_Z 100)).
  exists (Qfloor (p + (1 # 2))). split; [reflexivity |].
  change (inject_Z 100) with 100 in p.
  split.
  - intros Hle. apply inject_Z_le in Hle.
    assert (d0 : 0 <= d) by (apply round53_nonneg; lra).
    assert (d1 : d <= inject_Z original).
    { apply round53_le_Z; [lra | lia | lra]. }
    assert (q0 : 0 <= q) by (apply round53_nonneg, Qle_shift_div_l; lra).
    assert (q1 : q <= inject_Z 1).
    { apply round53_le_Z; [apply Qle_shift_div_l; lra | lia |].
      apply Qle_shift_div_r; [exact opos |]. change (inject_Z 1) with 1. lra. }
    change (inject_Z 1) with 1 in q1.
    assert (p0 : 0 <= p) by (apply round53_nonneg; nra).
    assert (p1 : p <= inject_Z 100).
    { apply round53_le_Z; [nra | lia |]. change (inject_Z 100) with 100. nra. }
    change (inject_Z 100) with 100 in p1.
    split.
    + apply (Qfloor_ge_Z _ 0). change (inject_Z 0) with 0. lra.
    + apply Qfloor_le_Z. change (inject_Z (100 + 1)) with 101. lra.
  - intros Hle. apply inject_Z_le in Hle.
    assert (d0 : d <= 0) by (apply round53_nonpos; lra).
    assert (q0 : q <= 0).
    { apply round53_nonpos, Qle_shift_div_r; lra. }
    assert (p0 : p <= 0) by (apply round53_nonpos; nra).
    apply Qfloor_le_Z. change (inject_Z (0 + 1)) with 1. lra.
Qed.

End SavingsFacts.

(** ** How [handleCompress] ends *)

Section CompressOutcome.

Variable host : Host.

Lemma compressedCount_all (h : list CompressedImage) (rs : list ref) :
  Forall (fun r : ref => exists o, h !! r = Some o /\ present (compressedBlob o) = true) rs ->
  length (List.filter (fun r : ref => match h !! r with
                                      | Some o => present (compressedBlob o)
                                      | None => false
                                      end) rs) = length rs.
Proof.
  induction 1 as [| r rs (o & Ho & Hb) _ IH]; [reflexivity |].
  cbn [List.filter]. rewrite Ho, Hb. cbn [length]. now rewrite IH.
Qed.

(** X1.  In a state whose references are valid, [handleCompress] ends in
    one of three ways, decided by the entries without a blob: with the
    error notice and the list untouched when the blob of one of them comes
    back [null]; with no notice at all, still processing, when none does
    but the image of one never loads; and otherwise with the success
    notice counting the whole list, every image of which then has a
    blob. *)
Theorem handleCompress_verdict (st : State) :
  wellFormed st ->
  let st' := handleCompress host st in
  let es := entries st in
  (existsb (fails host (settings st)) es = true ->
   toasts st' = toasts st ++ [ToastError] /\ isProcessing st' = false /\
   images st' = images st) /\
  (existsb (fails host (settings st)) es = false ->
   existsb (stalls host (settings st)) es = true ->
   toasts st' = toasts st /\ isProcessing st' = true /\
   images st' = images st) /\
  (existsb (fails host (settings st)) es = false ->
   existsb (stalls host (settings st)) es = false ->
   toasts st' = toasts st ++ [ToastDone (length (images st))] /\
   isProcessing st' = false /\
   length (images st') = length (images st) /\
   compressedCount st' = length (images st)).
Proof.
  intros Hwf. cbv zeta.
  destruct (Promise_all_verdict host (settings st) (images st)
              (heap (world st)) (world st) (reflexivity _) Hwf) as (V & _).
  fold (entries st) in V. unfold batchVerdict in V.
  unfold handleCompress, compressedCount.
  destruct (Promise_all _ (world st)) as [w out] eqn:E. cbn [snd] in V.
  destruct (Promise_all_compress host _ _ _ _ _ E) as [_ R].
  split; [| split].
  - intros F. rewrite F in V. destruct out; try discriminate.
    repeat split.
  - intros F S. rewrite F, S in V. destruct out; try discriminate.
    repeat split.
  - intros F S. rewrite F, S in V. destruct out as [rs | |]; try discriminate.
    cbn [toasts isProcessing images world].
    specialize (R rs eq_refl).
    pose proof (Forall2_length _ _ _ R) as Hlen.
    repeat split; [now symmetry |].
    rewrite Hlen. apply compressedCount_all.
    clear - R. induction R as [| r r' rs0 rs' (o' & Ho' & Hb & _) _ IH];
      constructor; [exists o'; split; assumption | exact IH].
Qed.

(** X2.  Whatever the outcome, [handleCompress] calls [compressImage]
    exactly once for each entry without a blob, in the order of the list
    and with the entry's file, and for no other entry; each call makes
    one object URL, and no identifier is drawn. *)
Theorem handleCompress_calls (st : State) :
  wellFormed st ->
  let st' := handleCompress host st in
  let work := List.filter needsWork (entries st) in
  transformCalls (world st') = transformCalls (world st) ++ map originalFile work /\
  urls (world st') = urls (world st) + length work /\
  draws (world st') = draws (world st).
Proof.
  intros Hwf. cbv zeta.
  destruct (Promise_all_verdict host (settings st) (images st)
              (heap (world st)) (world st) (reflexivity _) Hwf) as (_ & _ & C & U & D).
  fold (entries st) in C, U. unfold handleCompress.
  destruct (Promise_all _ (world st)) as [w out]. cbn [fst] in *.
  destruct out; cbn [world]; repeat split; assumption.
Qed.

End CompressOutcome.

(** ** Uploads, downloads and removals *)

Section Handlers.

Variable host : Host.

Lemma newEntry_shift w w' k file :
  draws w' = S (draws w) -> urls w' = S (urls w) ->
  newEntry host w' k file = newEntry host w (S k) file.
Proof.
  intros Hd Hu. unfold newEntry. rewrite Hd, Hu, !Nat.add_succ_r. reflexivity.
Qed.

(** X3.  An upload adds to the store, in the files' order, one entry for
    each file whose type starts with [image/]: the k-th of them has the
    k-th identifier and the k-th object URL the host gives from then on,
    and the list gets their references appended.  Everything else stays:
    a file of another type leaves no trace. *)
Theorem handleFileUpload_store (files : list File.t) (st : State) :
  let st' := handleFileUpload host files st in
  let kept := accepted files in
  heap (world st') = heap (world st) ++ imap (newEntry host (world st)) kept /\
  images st' = images st ++ seq (length (heap (world st))) (length kept) /\
  draws (world st') = draws (world st) + length kept /\
  urls (world st') = urls (world st) + length kept /\
  transformCalls (world st') = transformCalls (world st) /\
  isProcessing st' = isProcessing st /\ settings st' = settings st /\
  toasts st' = toasts st /\ downloads st' = downloads st.
Proof.
  revert st. induction files as [| f files IH]; intros st; cbv zeta.
  - cbn. rewrite !app_nil_r, !Nat.add_0_r. repeat split.
  - cbn [handleFileUpload fold_left accepted List.filter].
    fold (handleFileUpload host files (addFile host st f)).
    fold (accepted files).
    destruct (IH (addFile host st f)) as (Hh & Hi & Hd & Hu & Hc & Hp & Hs & Ht & Hl).
    rewrite Hh, Hi, Hd, Hu, Hc, Hp, Hs, Ht, Hl. clear Hh Hi Hd Hu Hc Hp Hs Ht Hl IH.
    unfold addFile.
    destruct (String.prefix "image/" (File.type f)) eqn:Hty.
    + cbn [world heap images draws urls transformCalls isProcessing settings
             toasts downloads length].
      rewrite imap_cons, <- !app_assoc, length_app. cbn [app length seq].
      rewrite Nat.add_1_r, !Nat.add_succ_r.
      repeat split.
      f_equal. f_equal.
      * unfold newEntry. now rewrite !Nat.add_0_r.
      * apply imap_ext. intros k x _. cbn. now apply newEntry_shift.
    + repeat split.
Qed.

Lemma wellFormed_addFile st f : wellFormed st -> wellFormed (addFile host st f).
Proof.
  intros Hwf. unfold addFile.
  destruct (String.prefix "image/" (File.type f)); [| exact Hwf].
  unfold wellFormed in *. cbn [world heap images].
  rewrite length_app. cbn [length].
  apply Forall_app. split.
  - eapply Forall_impl; [exact Hwf |]. cbn. intros. lia.
  - constructor; [lia | constructor].
Qed.

Lemma wellFormed_upload files :
  forall st, wellFormed st -> wellFormed (handleFileUpload host files st).
Proof.
  induction files as [| f files IH]; intros st Hwf; [exact Hwf |].
  apply (IH (addFile host st f)), wellFormed_addFile, Hwf.
Qed.

(** *** Downloads *)

Lemma handleDownload_blob image acc b :
  compressedBlob image = Some b ->
  handleDownload image acc =
    {| world := {| heap := heap (world acc);
                   transformCalls := transformCalls (world acc);
                   urls := S (urls (world acc)); draws := draws (world acc) |};
       images := images acc; isProcessing := isProcessing acc;
       settings := settings acc; toasts := toasts acc;
       downloads :=
         downloads acc ++
         [(downloadName (File.name (originalFile image)) (outputFormat (settings acc)),
           b)] |}.
Proof. intros H. unfold handleDownload. now rewrite H. Qed.

Lemma downloadOf_blob fmt o b :
  compressedBlob o = Some b ->
  downloadOf fmt o = Some (downloadName (File.name (originalFile o)) fmt, b).
Proof. intros H. unfold downloadOf. now rewrite H. Qed.

Lemma downloadOf_none fmt o : compressedBlob o = None -> downloadOf fmt o = None.
Proof. intros H. unfold downloadOf. now rewrite H. Qed.

Lemma handleDownloadAll_fold (h : list CompressedImage) (fmt : string) (rs : list ref) :
  forall acc : State,
    outputFormat (settings acc) = fmt ->
    let res :=
      fold_left
        (fun acc r =>
           match h !! r with
           | Some image =>
               if present (compressedBlob image) then handleDownload image acc else acc
           | None => acc
           end) rs acc in
    let saved := omap (downloadOf fmt) (omap (fun r : ref => h !! r) rs) in
    downloads res = downloads acc ++ saved /\
    urls (world res) = urls (world acc) + length saved /\
    heap (world res) = heap (world acc) /\
    transformCalls (world res) = transformCalls (world acc) /\
    draws (world res) = draws (world acc) /\
    images res = images acc /\ isProcessing res = isProcessing acc /\
    settings res = settings acc /\ toasts res = toasts acc.
Proof.
  induction rs as [| r rs IH]; intros acc Hfmt; cbv zeta.
  - cbn. rewrite app_nil_r, Nat.add_0_r. repeat split.
  - cbn [fold_left].
    destruct (h !! r) as [image |] eqn:Hr.
    2:{ cbn [omap list_omap]. rewrite Hr. now apply IH. }
    rewrite (omap_lookup_cons h r rs image Hr).
    cbn [omap list_omap].
    destruct (compressedBlob image) as [b |] eqn:Hb; cbn [present].
    + rewrite (handleDownload_blob image acc b Hb), (downloadOf_blob fmt image b Hb).
      match goal with |- context [fold_left _ rs ?acc1] =>
        destruct (IH acc1 Hfmt) as (Hd & Hu & Hh & Hc & Hw & Hi & Hp & Hs & Ht) end.
      cbv zeta in *.
      rewrite Hd, Hu, Hh, Hc, Hw, Hi, Hp, Hs, Ht.
      cbn [downloads world urls heap transformCalls draws images isProcessing
             settings toasts length].
      rewrite Hfmt, <- app_assoc, Nat.add_succ_r. repeat split.
    + rewrite (downloadOf_none fmt image Hb). now apply IH.
Qed.

Lemma saved_count (h : list CompressedImage) (fmt : string) (rs : list ref) :
  length (omap (downloadOf fmt) (omap (fun r : ref => h !! r) rs)) =
  length (List.filter (fun r : ref => match h !! r with
                                      | Some o => present (compressedBlob o)
                                      | None => false
                                      end) rs).
Proof.
  induction rs as [| r rs IH]; [reflexivity |].
  cbn [omap list_omap List.filter].
  destruct (h !! r) as [o |]; [| exact IH].
  cbn [omap list_omap].
  destruct (compressedBlob o) as [b |] eqn:Hb; cbn [present].
  - rewrite (downloadOf_blob fmt o b Hb). cbn [length]. now rewrite IH.
  - rewrite (downloadOf_none fmt o Hb). exact IH.
Qed.

(** X4.  "Baixar Todas" saves one file for each image of the list that has
    a blob, in the order of the list, under the name [handleDownload]
    gives it and with its blob, and none for the other images; it changes
    neither the list nor the store. *)
Theorem handleDownloadAll_saves (st : State) :
  let st' := handleDownloadAll st in
  let saved := omap (downloadOf (outputFormat (settings st))) (entries st) in
  downloads st' = downloads st ++ saved /\
  length saved = compressedCount st /\
  images st' = images st /\ heap (world st') = heap (world st) /\
  toasts st' = toasts st /\ isProcessing st' = isProcessing st.
Proof.
  cbv zeta. unfold handleDownloadAll, entries, compressedCount.
  destruct (handleDownloadAll_fold (heap (world st)) (outputFormat (settings st))
              (images st) st eq_refl) as (Hd & _ & Hh & _ & _ & Hi & Hp & _ & Ht).
  cbv zeta in *.
  split; [exact Hd |]. split; [apply saved_count |].
  repeat split; assumption.
Qed.

(** *** Removals *)

Lemma removeImage_filter key (h : list CompressedImage) (rs : list ref) :
  omap (fun r : ref => h !! r)
    (List.filter (fun r : ref => match h !! r with
                                 | Some o => negb (String.eqb (id o) key)
                                 | None => false
                                 end) rs) =
  List.filter (fun o => negb (String.eqb (id o) key)) (omap (fun r : ref => h !! r) rs).
Proof.
  induction rs as [| r rs IH]; [reflexivity |].
  cbn [List.filter omap list_omap].
  destruct (h !! r) as [o |] eqn:Hr; [| exact IH].
  cbn [List.filter].
  destruct (negb (String.eqb (id o) key)); [| exact IH].
  cbn [omap list_omap]. rewrite Hr. now rewrite IH.
Qed.

(** X5.  [removeImage] keeps, in their order, exactly the images whose
    [id] differs from the one given, so that no image with that [id] is
    left (all of them go when several have it); the store is not
    touched, and removing the same [id] again changes nothing. *)
Theorem removeImage_entries (key : string) (st : State) :
  let st' := removeImage key st in
  entries st' = List.filter (fun o => negb (String.eqb (id o) key)) (entries st) /\
  Forall (fun o => id o <> key) (entries st') /\
  world st' = world st /\
  removeImage key st' = st'.
Proof.
  cbv zeta.
  assert (E : entries (removeImage key st) =
              List.filter (fun o => negb (String.eqb (id o) key)) (entries st)).
  { unfold entries, removeImage. cbn [world images]. apply removeImage_filter. }
  split; [exact E |]. split; [| split; [reflexivity |]].
  - rewrite E. apply Forall_forall. intros o Ho.
    apply list_elem_of_In, filter_In in Ho as [_ Hne].
    apply negb_true_iff, String.eqb_neq in Hne. exact Hne.
  - unfold removeImage. cbn [world images isProcessing settings toasts downloads].
    f_equal.
    induction (images st) as [| r rs IH]; [reflexivity |].
    cbn [List.filter].
    destruct (heap (world st) !! r) as [o |] eqn:Hr; [| exact IH].
    destruct (negb (String.eqb (id o) key)) eqn:Hk; [| exact IH].
    cbn [List.filter]. rewrite Hr, Hk. now rewrite IH.
Qed.

Lemma wellFormed_remove key st : wellFormed st -> wellFormed (removeImage key st).
Proof.
  unfold wellFormed, removeImage. cbn [world images]. intros Hwf.
  induction Hwf as [| r rs Hr _ IH]; [constructor |].
  cbn [List.filter]. destruct (heap (world st) !! r) as [o |]; [| exact IH].
  destruct (negb _); [constructor; assumption | exact IH].
Qed.

End Handlers.

(** ** What holds in every state the user can reach *)

Section Reachable.

Variable host : Host.

(** *** Valid references *)

Lemma omap_lookup_prefix (h h' : list CompressedImage) (rs : list ref) :
  h `prefix_of` h' -> Forall (fun r : ref => r < length h) rs ->
  omap (fun r : ref => h' !! r) rs = omap (fun r : ref => h !! r) rs.
Proof.
  intros P. induction 1 as [| r rs Hr _ IH]; [reflexivity |].
  destruct (lookup_lt_is_Some_2 h r Hr) as [o Ho].
  rewrite (omap_lookup_cons h r rs o Ho).
  rewrite (omap_lookup_cons h' r rs o (prefix_lookup_Some _ _ _ _ Ho P)).
  now rewrite IH.
Qed.

Lemma wellFormed_compress st : wellFormed st -> wellFormed (handleCompress host st).
Proof.
  intros Hwf. unfold wellFormed in *.
  pose proof (handleCompress_store host st) as P.
  destruct (handleCompress_images host st) as [Same | New].
  - rewrite Same. eapply Forall_impl; [exact Hwf |].
    cbn. intros r Hr. apply prefix_length in P. lia.
  - clear - New. induction New as [| r r' rs rs' (o' & Ho' & _) _ IH];
      constructor; [| exact IH].
    eapply lookup_lt_Some, Ho'.
Qed.

Lemma handleDownload_frame image st :
  heap (world (handleDownload image st)) = heap (world st) /\
  draws (world (handleDownload image st)) = draws (world st) /\
  images (handleDownload image st) = images st /\
  isProcessing (handleDownload image st) = isProcessing st.
Proof. unfold handleDownload. destruct (compressedBlob image); repeat split. Qed.

Lemma handleDownloadAll_frame st :
  heap (world (handleDownloadAll st)) = heap (world st) /\
  draws (world (handleDownloadAll st)) = draws (world st) /\
  images (handleDownloadAll st) = images st /\
  isProcessing (handleDownloadAll st) = isProcessing st.
Proof.
  unfold handleDownloadAll.
  destruct (handleDownloadAll_fold (heap (world st)) (outputFormat (settings st))
              (images st) st eq_refl) as (_ & _ & Hh & _ & Hd & Hi & Hp & _).
  cbv zeta in *. repeat split; assumption.
Qed.

Lemma wellFormed_sameList st st' : sameList st st' -> wellFormed st -> wellFormed st'.
Proof. intros (Hh & _ & Hi). unfold wellFormed. now rewrite Hh, Hi. Qed.

Lemma entries_sameList st st' : sameList st st' -> entries st' = entries st.
Proof. intros (Hh & _ & Hi). unfold entries. now rewrite Hh, Hi. Qed.

Lemma imageAt_valid st index :
  wellFormed st -> imageAt st index = None -> length (images st) <= index.
Proof.
  intros Hwf. unfold imageAt.
  destruct (images st !! index) as [r |] eqn:Hi; cbn [mbind option_bind].
  - intros Hnone. exfalso.
    pose proof (Forall_lookup_1 _ _ _ _ Hwf Hi) as Hr. cbn in Hr.
    destruct (lookup_lt_is_Some_2 _ _ Hr) as [o Ho]. congruence.
  - intros _. now apply lookup_ge_None_1.
Qed.

Lemma perform_cases st a :
  (exists files, perform host st a = handleFileUpload host files st) \/
  perform host st a = handleCompress host st \/
  (exists key, perform host st a = removeImage key st) \/
  sameList st (perform host st a) /\
  isProcessing (perform host st a) = isProcessing st.
Proof.
  destruct a as [files | | index | | index | s]; cbn [perform].
  - left. now exists files.
  - destruct (compressDisabled st); [| now right; left].
    right; right; right. repeat split.
  - right; right; right. destruct (imageAt st index) as [image |]; [| repeat split].
    destruct (present (compressedBlob image)); [| repeat split].
    destruct (handleDownload_frame image st) as (? & ? & ? & ?). repeat split; assumption.
  - right; right; right. destruct (downloadAllDisabled st); [repeat split |].
    destruct (handleDownloadAll_frame st) as (? & ? & ? & ?). repeat split; assumption.
  - destruct (imageAt st index) as [image |].
    + right; right; left. now exists (id image).
    + right; right; right. repeat split.
  - right; right; right. repeat split.
Qed.

Lemma wellFormed_perform st a : wellFormed st -> wellFormed (perform host st a).
Proof.
  intros Hwf.
  destruct (perform_cases st a) as [[files ->] | [-> | [[key ->] | [Hsame _]]]].
  - now apply wellFormed_upload.
  - now apply wellFormed_compress.
  - now apply wellFormed_remove.
  - now apply (wellFormed_sameList st).
Qed.

Lemma wellFormed_initial : wellFormed initialState.
Proof. constructor. Qed.

Lemma run_invariant (Inv : State -> Prop) :
  (forall st a, Inv st -> Inv (perform host st a)) ->
  forall actions st, Inv st -> Inv (run host actions st).
Proof.
  intros Hstep. induction actions as [| a actions IH]; intros st Hst; [exact Hst |].
  apply (IH (perform host st a)), Hstep, Hst.
Qed.

(** *** Sizes *)

Lemma compressEntry_consistent s r w :
  Forall consistent (heap w) ->
  Forall consistent (heap (compressEntry host s r w).1).
Proof.
  intros Hc. rewrite compressEntry_unfold.
  destruct (heap w !! r) as [o |] eqn:Hr; [| exact Hc].
  destruct (present (compressedBlob o)); [exact Hc |]. cbv zeta.
  destruct ((compressImage host _ _ _ _ _ _ w).2) as [[b |] | e |];
    cbn [fst heap allocate logCall]; try exact Hc.
  apply Forall_app. split; [exact Hc |].
  constructor; [| constructor].
  destruct (Forall_lookup_1 _ _ _ _ Hc Hr) as [Ho _].
  split; [exact Ho | reflexivity].
Qed.

Lemma Promise_all_consistent s rs :
  forall w, Forall consistent (heap w) ->
            Forall consistent (heap (Promise_all (map (compressEntry host s) rs) w).1).
Proof.
  induction rs as [| r rs IH]; intros w Hc; [exact Hc |].
  cbn [map]. rewrite Promise_all_cons.
  pose proof (compressEntry_consistent s r w Hc) as H1.
  destruct (compressEntry host s r w) as [w1 o1]. cbn [fst] in H1.
  specialize (IH w1 H1).
  destruct (Promise_all (map (compressEntry host s) rs) w1) as [w2 os].
  exact IH.
Qed.

Lemma consistent_compress st :
  Forall consistent (heap (world st)) ->
  Forall consistent (heap (world (handleCompress host st))).
Proof.
  intros Hc. pose proof (Promise_all_consistent (settings st) (images st) _ Hc) as H.
  unfold handleCompress.
  destruct (Promise_all _ (world st)) as [w out]. cbn [fst] in H.
  destruct out; exact H.
Qed.

Lemma consistent_upload files :
  forall st, Forall consistent (heap (world st)) ->
             Forall consistent (heap (world (handleFileUpload host files st))).
Proof.
  induction files as [| f files IH]; intros st Hc; [exact Hc |].
  apply (IH (addFile host st f)). unfold addFile.
  destruct (String.prefix "image/" (File.type f)); [| exact Hc].
  cbn [world heap]. apply Forall_app. split; [exact Hc |].
  constructor; [| constructor]. split; reflexivity.
Qed.

Lemma consistent_perform st a :
  Forall consistent (heap (world st)) ->
  Forall consistent (heap (world (perform host st a))).
Proof.
  intros Hc.
  destruct (perform_cases st a) as [[files ->] | [-> | [[key ->] | [(Hh & _) _]]]].
  - now apply consistent_upload.
  - now apply consistent_compress.
  - exact Hc.
  - now rewrite Hh.
Qed.

Lemma Forall_entries (P : CompressedImage -> Prop) st :
  Forall P (heap (world st)) -> Forall P (entries st).
Proof.
  intros Hc. unfold entries.
  induction (images st) as [| r rs IH]; [constructor |].
  cbn [omap list_omap].
  destruct (heap (world st) !! r) as [o |] eqn:Hr; [| exact IH].
  constructor; [| exact IH]. exact (Forall_lookup_1 _ _ _ _ Hc Hr).
Qed.

(** *** Identifiers *)

Lemma filter_map {A B} (f : A -> B) (p : B -> bool) (l : list A) :
  List.filter p (map f l) = map f (List.filter (fun x => p (f x)) l).
Proof.
  induction l as [| x l IH]; [reflexivity |].
  cbn. destruct (p (f x)); cbn; now rewrite IH.
Qed.

Lemma NoDup_List_filter {A} (p : A -> bool) (l : list A) :
  NoDup l -> NoDup (List.filter p l).
Proof.
  induction 1 as [| x l Hx _ IH]; [constructor |].
  cbn. destruct (p x); [| exact IH].
  constructor; [| exact IH].
  intros Hin. apply Hx.
  apply list_elem_of_In, filter_In in Hin as [Hin _]. now apply list_elem_of_In.
Qed.

Lemma idsOf_addFile st f :
  wellFormed st ->
  String.prefix "image/" (File.type f) = true ->
  idsOf (addFile host st f) = idsOf st ++ [randomId host (draws (world st))] /\
  draws (world (addFile host st f)) = S (draws (world st)).
Proof.
  intros Hwf Hty. unfold idsOf, entries, addFile. rewrite Hty.
  cbn [world heap images draws].
  rewrite omap_app, map_app.
  rewrite (omap_lookup_prefix (heap (world st))); [| now apply prefix_app_r | exact Hwf].
  cbn [omap list_omap].
  rewrite list_lookup_middle by reflexivity. split; reflexivity.
Qed.

Lemma freshIds_addFile st f :
  wellFormed st -> freshIds host st -> freshIds host (addFile host st f).
Proof.
  intros Hwf (ks & Hids & Hnd & Hlt).
  destruct (String.prefix "image/" (File.type f)) eqn:Hty.
  - destruct (idsOf_addFile st f Hwf Hty) as [Hi Hd].
    exists (ks ++ [draws (world st)]). rewrite Hi, Hd, Hids, map_app.
    split; [reflexivity |]. split.
    + apply NoDup_app. split; [exact Hnd |]. split; [| apply NoDup_singleton].
      intros k Hk Hin. apply list_elem_of_singleton in Hin. subst k.
      apply list_elem_of_lookup in Hk as [i Hi'].
      pose proof (Forall_lookup_1 _ _ _ _ Hlt Hi') as Hb. cbn in Hb. lia.
    + apply Forall_app. split.
      * eapply Forall_impl; [exact Hlt |]. cbn. intros. lia.
      * constructor; [lia | constructor].
  - unfold addFile. rewrite Hty. exists ks. repeat split; assumption.
Qed.

Lemma freshIds_upload files :
  forall st, wellFormed st -> freshIds host st ->
             freshIds host (handleFileUpload host files st).
Proof.
  induction files as [| f files IH]; intros st Hwf Hf; [exact Hf |].
  apply (IH (addFile host st f)).
  - now apply wellFormed_addFile.
  - now apply freshIds_addFile.
Qed.

Lemma idsOf_results (w w' : World) (rs rs' : list ref) :
  Forall (fun r : ref => r < length (heap w)) rs ->
  Forall2 (entryResult w w') rs rs' ->
  map id (omap (fun r : ref => heap w' !! r) rs') =
  map id (omap (fun r : ref => heap w !! r) rs).
Proof.
  intros Hwf R. induction R as [| r r' rs rs' (o' & Ho' & _ & Hsrc) _ IH];
    [reflexivity |].
  apply Forall_cons in Hwf as [Hr Hwf].
  destruct (lookup_lt_is_Some_2 _ _ Hr) as [o Ho].
  rewrite (omap_lookup_cons _ r rs o Ho), (omap_lookup_cons _ r' rs' o' Ho').
  destruct (Hsrc o Ho) as [(Hid & _) _].
  cbn [map]. now rewrite Hid, (IH Hwf).
Qed.

Lemma idsOf_compress st :
  wellFormed st ->
  idsOf (handleCompress host st) = idsOf st /\
  draws (world (handleCompress host st)) = draws (world st).
Proof.
  intros Hwf. split.
  - unfold idsOf, entries.
    pose proof (handleCompress_store host st) as P.
    destruct (handleCompress_images host st) as [Same | New].
    + rewrite Same. now rewrite (omap_lookup_prefix _ _ _ P Hwf).
    + now apply idsOf_results.
  - destruct (Promise_all_verdict host (settings st) (images st)
                (heap (world st)) (world st) (reflexivity _) Hwf) as (_ & _ & _ & _ & D).
    unfold handleCompress.
    destruct (Promise_all _ (world st)) as [w out]. cbn [fst] in D.
    destruct out; exact D.
Qed.

Lemma idsOf_remove key st :
  idsOf (removeImage key st) =
  List.filter (fun i => negb (String.eqb i key)) (idsOf st).
Proof.
  unfold idsOf, entries, removeImage. cbn [world images].
  now rewrite removeImage_filter, filter_map.
Qed.

Lemma freshIds_perform st a :
  wellFormed st -> freshIds host st -> freshIds host (perform host st a).
Proof.
  intros Hwf Hf.
  destruct (perform_cases st a) as [[files ->] | [-> | [[key ->] | [Hsame _]]]].
  - now apply freshIds_upload.
  - destruct Hf as (ks & Hids & Hnd & Hlt).
    destruct (idsOf_compress st Hwf) as [Hi Hd].
    exists ks. rewrite Hi, Hd. repeat split; assumption.
  - destruct Hf as (ks & Hids & Hnd & Hlt).
    exists (List.filter (fun k => negb (String.eqb (randomId host k) key)) ks).
    rewrite idsOf_remove, Hids, filter_map.
    split; [reflexivity |]. split; [now apply NoDup_List_filter |].
    apply Forall_forall. intros k Hk.
    apply list_elem_of_In, filter_In in Hk as [Hk _].
    apply list_elem_of_In in Hk.
    exact (proj1 (Forall_forall _ _) Hlt k Hk).
  - destruct Hf as (ks & Hids & Hnd & Hlt).
    exists ks. unfold idsOf. rewrite (entries_sameList _ _ Hsame).
    destruct Hsame as (_ & Hd & _). rewrite Hd. repeat split; assumption.
Qed.

(** *** Removing one image *)

Lemma delete_beyond {A} (l : list A) i : length l <= i -> delete i l = l.
Proof.
  revert i. induction l as [| x l IH]; intros i Hi; [now destruct i |].
  destruct i as [| i]; cbn in *; [lia |]. f_equal. apply IH. lia.
Qed.

Lemma filter_keeps_all (h : list CompressedImage) key (rs : list ref) :
  Forall (fun r : ref => r < length h) rs ->
  key ∉ map id (omap (fun r : ref => h !! r) rs) ->
  List.filter (fun r : ref => match h !! r with
                              | Some o => negb (String.eqb (id o) key)
                              | None => false
                              end) rs = rs.
Proof.
  induction 1 as [| r rs Hr _ IH]; intros Hnot; [reflexivity |].
  destruct (lookup_valid h r Hr) as [o Ho].
  rewrite (omap_lookup_cons h r rs o Ho) in Hnot. cbn [map] in Hnot.
  apply not_elem_of_cons in Hnot as [Hne Hnot].
  cbn [List.filter]. rewrite Ho.
  assert (E : String.eqb (id o) key = false) by (apply String.eqb_neq; congruence).
  rewrite E. cbn [negb]. now rewrite (IH Hnot).
Qed.

Lemma filter_removes_index (h : list CompressedImage) (rs : list ref) :
  forall i r o,
    Forall (fun r : ref => r < length h) rs ->
    NoDup (map id (omap (fun r : ref => h !! r) rs)) ->
    rs !! i = Some r -> h !! r = Some o ->
    List.filter (fun r : ref => match h !! r with
                                | Some o' => negb (String.eqb (id o') (id o))
                                | None => false
                                end) rs = delete i rs.
Proof.
  induction rs as [| r0 rs IH]; intros i r o Hwf Hnd Hi Hr; [discriminate |].
  apply Forall_cons in Hwf as [Hr0 Hwf].
  destruct (lookup_valid h r0 Hr0) as [o0 Ho0].
  rewrite (omap_lookup_cons h r0 rs o0 Ho0) in Hnd. cbn [map] in Hnd.
  apply NoDup_cons in Hnd as [Hnot Hnd].
  cbn [List.filter]. rewrite Ho0.
  destruct i as [| i]; cbn in Hi.
  - injection Hi as Heq. subst r0. rewrite Hr in Ho0. injection Ho0 as Heq. subst o0.
    rewrite String.eqb_refl. cbn [negb delete list_delete].
    now apply filter_keeps_all.
  - assert (Hin : id o ∈ map id (omap (fun r : ref => h !! r) rs)).
    { apply list_elem_of_In, in_map_iff. exists o. split; [reflexivity |].
      apply list_elem_of_In, list_elem_of_omap. exists r.
      split; [apply list_elem_of_lookup; eauto | exact Hr]. }
    assert (E : String.eqb (id o0) (id o) = false).
    { apply String.eqb_neq. intros Heq. apply Hnot. now rewrite Heq. }
    rewrite E. cbn [negb delete list_delete]. f_equal. now apply (IH i r o).
Qed.

(** *** A batch that never ends *)

Lemma isProcessing_upload files :
  forall st, isProcessing (handleFileUpload host files st) = isProcessing st.
Proof.
  induction files as [| f files IH]; intros st; [reflexivity |].
  cbn [handleFileUpload fold_left].
  fold (handleFileUpload host files (addFile host st f)).
  rewrite IH. unfold addFile.
  now destruct (String.prefix "image/" (File.type f)).
Qed.

Lemma isProcessing_perform st a :
  isProcessing st = true -> isProcessing (perform host st a) = true.
Proof.
  intros Hp. destruct a as [files | | index | | index | s]; cbn [perform].
  - now rewrite isProcessing_upload.
  - unfold compressDisabled. rewrite Hp, orb_true_r. exact Hp.
  - destruct (imageAt st index) as [image |]; [| exact Hp].
    destruct (present (compressedBlob image)); [| exact Hp].
    destruct (handleDownload_frame image st) as (_ & _ & _ & ->). exact Hp.
  - destruct (downloadAllDisabled st); [exact Hp |].
    destruct (handleDownloadAll_frame st) as (_ & _ & _ & ->). exact Hp.
  - destruct (imageAt st index) as [image |]; exact Hp.
  - exact Hp.
Qed.

(** X9.  When [handleCompress] runs on a list in which no entry's blob
    comes back [null] and the image of some entry without a blob never
    loads, the component stays in the processing state for good: nothing
    the user does afterwards ends it, and the compress button stays
    disabled. *)
Theorem stall_is_permanent (st : State) (actions : list Action) :
  wellFormed st ->
  existsb (fails host (settings st)) (entries st) = false ->
  existsb (stalls host (settings st)) (entries st) = true ->
  let st' := run host actions (handleCompress host st) in
  isProcessing st' = true /\ compressDisabled st' = true.
Proof.
  intros Hwf Hf Hs. cbv zeta.
  assert (Hp : isProcessing (handleCompress host st) = true).
  { destruct (Promise_all_verdict host (settings st) (images st)
                (heap (world st)) (world st) (reflexivity _) Hwf) as (V & _).
    fold (entries st) in V. unfold batchVerdict in V. rewrite Hf, Hs in V.
    unfold handleCompress.
    destruct (Promise_all _ (world st)) as [w out]. cbn [snd] in V.
    destruct out; try discriminate. reflexivity. }
  assert (H : isProcessing (run host actions (handleCompress host st)) = true).
  { apply (run_invariant (fun s => isProcessing s = true)); [| exact Hp].
    intros s a. apply isProcessing_perform. }
  split; [exact H |]. unfold compressDisabled. rewrite H. apply orb_true_r.
Qed.

End Reachable.

(** ** Sessions: actions that fall inside a batch *)

Section InTime.

Variable host : Host.

Lemma play_invariant (Inv : Session -> Prop) :
  (forall ss e, Inv ss -> Inv (step host ss e)) ->
  forall events ss, Inv ss -> Inv (play host events ss).
Proof.
  intros Hstep. induction events as [| e events IH]; intros ss Hss; [exact Hss |].
  apply (IH (step host ss e)), Hstep, Hss.
Qed.

(** *** The two halves of [handleCompress] *)

Lemma startCompress_unfold st :
  startCompress host st =
    let res := Promise_all (map (compressEntry host (settings st)) (images st))
                 (world st) in
    ({| world := res.1; images := images st; isProcessing := true;
        settings := settings st; toasts := toasts st; downloads := downloads st |},
     {| snapshot := images st; outcome := res.2 |}).
Proof.
  unfold startCompress. now destruct (Promise_all _ (world st)) as [w out].
Qed.

(** Settled at once, a batch is [handleCompress] as a whole. *)
Lemma startCompress_settle st :
  settleCompress (startCompress host st).2 (startCompress host st).1 =
  handleCompress host st.
Proof.
  rewrite startCompress_unfold. unfold handleCompress, settleCompress.
  destruct (Promise_all _ (world st)) as [w out].
  cbv zeta. cbn [fst snd outcome snapshot world images settings toasts downloads].
  now destruct out.
Qed.

Lemma startCompress_world st :
  world (startCompress host st).1 = world (handleCompress host st) /\
  images (startCompress host st).1 = images st /\
  isProcessing (startCompress host st).1 = true /\
  snapshot (startCompress host st).2 = images st.
Proof.
  rewrite startCompress_unfold. unfold handleCompress.
  destruct (Promise_all _ (world st)) as [w out]. cbv zeta. cbn [fst snd].
  now destruct out.
Qed.

Lemma settleCompress_world b st : world (settleCompress b st) = world st.
Proof. unfold settleCompress. now destruct (outcome b). Qed.

Lemma timedDownload_frame image format st :
  sameList st (timedDownload image format st) /\
  isProcessing (timedDownload image format st) = isProcessing st.
Proof. unfold timedDownload. destruct (compressedBlob image); repeat split. Qed.

(** *** The timers of [handleDownloadAll] *)

Lemma timedDownload_downloads image format st :
  downloads (timedDownload image format st) =
  downloads st ++ from_option (fun d => [d]) [] (downloadOf format image).
Proof.
  unfold timedDownload, downloadOf.
  destruct (compressedBlob image) as [blob |]; cbn; [reflexivity |].
  now rewrite app_nil_r.
Qed.

Lemma fire_all (ts : list (CompressedImage * string)) :
  forall ss,
    timers ss = ts ->
    let ss' := play host (repeat Fire (length ts)) ss in
    downloads (current ss') =
      downloads (current ss) ++ omap (fun t => downloadOf t.2 t.1) ts /\
    timers ss' = [].
Proof.
  induction ts as [| [image format] ts IH]; intros ss Hts; cbv zeta.
  - cbn. now rewrite app_nil_r.
  - cbn [length repeat play fold_left step]. rewrite Hts.
    match goal with |- context [fold_left _ _ ?s1] =>
      destruct (IH s1 eq_refl) as [Hd Ht] end.
    cbv zeta in Hd, Ht. unfold play in Hd, Ht. rewrite Hd, Ht.
    cbn [current]. rewrite timedDownload_downloads.
    split; [| reflexivity].
    rewrite <- app_assoc. f_equal. cbn [omap list_omap fst snd].
    now destruct (downloadOf format image).
Qed.

Lemma timersOf_saved st :
  omap (fun t => downloadOf t.2 t.1) (timersOf st) =
  omap (downloadOf (outputFormat (settings st))) (entries st).
Proof.
  unfold timersOf. induction (entries st) as [| o es IH]; [reflexivity |].
  cbn [omap list_omap]. unfold downloadOf at 2.
  destruct (compressedBlob o) as [blob |] eqn:Hb; cbn [present mbind option_bind].
  - cbn [omap list_omap fst snd]. rewrite (downloadOf_blob _ o blob Hb).
    now rewrite IH.
  - exact IH.
Qed.

(** Left to fire before anything else happens, the timers of a press save
    what [handleDownloadAll] saves as a whole. *)
Lemma downloadAll_in_time ss :
  timers ss = [] ->
  let pressed := step host ss (User DownloadAll) in
  let fired := play host (repeat Fire (length (timers pressed))) pressed in
  downloads (current fired) = downloads (handleDownloadAll (current ss)) /\
  timers fired = [].
Proof.
  intros Hts. cbv zeta.
  destruct (handleDownloadAll_fold (heap (world (current ss)))
              (outputFormat (settings (current ss))) (images (current ss))
              (current ss) eq_refl) as (Hd & _).
  cbv zeta in Hd. fold (entries (current ss)) in Hd.
  fold (handleDownloadAll (current ss)) in Hd.
  pose proof (saved_count (heap (world (current ss)))
                (outputFormat (settings (current ss))) (images (current ss))) as Hn.
  fold (entries (current ss)) in Hn. fold (compressedCount (current ss)) in Hn.
  cbn [step]. unfold downloadAllDisabled.
  destruct (Nat.eqb_spec (compressedCount (current ss)) 0) as [Hz | Hz].
  - rewrite Hts. cbn. rewrite Hd. rewrite Hz in Hn.
    apply nil_length_inv in Hn. rewrite Hn. now rewrite app_nil_r.
  - match goal with |- context [play host _ ?s1] =>
      destruct (fire_all (timers s1) s1 eq_refl) as [Hf Ht] end.
    cbv zeta in Hf, Ht. rewrite Hf, Ht. cbn [current timers].
    rewrite Hts. cbn [app]. rewrite timersOf_saved, Hd. now split.
Qed.

(** *** Sizes *)

Lemma consistent_step ss e :
  Forall consistent (heap (world (current ss))) ->
  Forall consistent (heap (world (current (step host ss e)))).
Proof.
  intros Hc. destruct e as [a | |].
  - destruct a as [files | | index | | index | s]; cbn [step current];
      try (now apply consistent_perform).
    + destruct (compressDisabled (current ss)); [exact Hc |].
      destruct (startCompress_world (current ss)) as (Hw & _).
      destruct (startCompress host (current ss)) as [st b]. cbn [fst current] in *.
      rewrite Hw. now apply consistent_compress.
    + now destruct (downloadAllDisabled (current ss)).
  - cbn [step]. destruct (inFlight ss) as [b |]; [| exact Hc].
    destruct (outcome b) eqn:O; cbn [current]; try exact Hc;
      now rewrite settleCompress_world.
  - cbn [step]. destruct (timers ss) as [| [image format] rest]; [exact Hc |].
    cbn [current].
    destruct (timedDownload_frame image format (current ss)) as [(Hh & _) _].
    now rewrite Hh.
Qed.

(** X6.  Whatever happens in a session, actions inside a batch included,
    every image of the list shows true sizes: its [originalSize] is the
    size of its file, and its [compressedSize] is the size of its blob
    when it has one and absent when it has none. *)
Theorem sizes_are_true (events : list Event) :
  Forall consistent (entries (current (play host events initialSession))).
Proof.
  apply Forall_entries.
  apply (play_invariant (fun ss => Forall consistent (heap (world (current ss))))).
  - intros ss e. apply consistent_step.
  - constructor.
Qed.

(** *** Identifiers *)

Lemma grows_refl st : grows st st.
Proof. split; [reflexivity | lia]. Qed.

Lemma grows_trans st1 st2 st3 : grows st1 st2 -> grows st2 st3 -> grows st1 st3.
Proof. intros [P1 D1] [P2 D2]. split; [etrans; eassumption | lia]. Qed.

Lemma grows_sameList st st' : sameList st st' -> grows st st'.
Proof. intros (Hh & Hd & _). unfold grows. rewrite Hh, Hd. split; [reflexivity | lia]. Qed.

Lemma grows_upload files : forall st, grows st (handleFileUpload host files st).
Proof.
  induction files as [| f files IH]; intros st; [apply grows_refl |].
  apply (grows_trans _ (addFile host st f)); [| apply IH].
  unfold addFile. destruct (String.prefix "image/" (File.type f));
    [| apply grows_refl].
  split; cbn [world heap draws]; [now apply prefix_app_r | lia].
Qed.

Lemma grows_compress st : wellFormed st -> grows st (handleCompress host st).
Proof.
  intros Hwf. split; [apply handleCompress_store |].
  destruct (idsOf_compress host st Hwf) as [_ ->]. lia.
Qed.

Lemma grows_perform st a : wellFormed st -> grows st (perform host st a).
Proof.
  intros Hwf.
  destruct (perform_cases host st a) as [[files ->] | [-> | [[key ->] | [Hsame _]]]].
  - apply grows_upload.
  - now apply grows_compress.
  - unfold grows, removeImage. cbn [world]. split; [reflexivity | lia].
  - now apply grows_sameList.
Qed.

Lemma wellFormed_grow st st' :
  grows st st' -> images st' = images st -> wellFormed st -> wellFormed st'.
Proof.
  intros [P _] Hi Hwf. unfold wellFormed in *. rewrite Hi.
  eapply Forall_impl; [exact Hwf |]. cbn. intros r Hr.
  apply prefix_length in P. lia.
Qed.

Lemma idsOf_grow st st' :
  grows st st' -> images st' = images st -> wellFormed st -> idsOf st' = idsOf st.
Proof.
  intros [P _] Hi Hwf. unfold idsOf, entries. rewrite Hi.
  now rewrite (omap_lookup_prefix _ _ _ P Hwf).
Qed.

Lemma freshIds_grow st st' :
  grows st st' -> images st' = images st -> wellFormed st ->
  freshIds host st -> freshIds host st'.
Proof.
  intros G Hi Hwf (ks & Hids & Hnd & Hlt).
  exists ks. rewrite (idsOf_grow st st' G Hi Hwf).
  split; [exact Hids |]. split; [exact Hnd |].
  destruct G as [_ D].
  eapply Forall_impl; [exact Hlt |]. cbn. intros k Hk. lia.
Qed.

Lemma freshIds_compress st :
  wellFormed st -> freshIds host st -> freshIds host (handleCompress host st).
Proof.
  intros Hwf (ks & Hids & Hnd & Hlt).
  destruct (idsOf_compress host st Hwf) as [Hi Hd].
  exists ks. rewrite Hi, Hd. repeat split; assumption.
Qed.

(** The results of a batch stay valid while the store grows. *)
Lemma sound_settle b st st' :
  grows st st' -> wellFormed st' -> freshIds host st' ->
  wellFormed (settleCompress b st) -> freshIds host (settleCompress b st) ->
  wellFormed (settleCompress b st') /\ freshIds host (settleCompress b st').
Proof.
  intros G Hwf' Hf' Hwf Hf. unfold settleCompress in *.
  destruct (outcome b) as [rs | e |].
  - match type of Hwf with wellFormed ?t0 => set (settled := t0) in * end.
    split.
    + match goal with |- wellFormed ?t =>
        refine (wellFormed_grow settled t _ eq_refl Hwf) end. exact G.
    + match goal with |- freshIds _ ?t =>
        refine (freshIds_grow settled t _ eq_refl Hwf Hf) end. exact G.
  - split.
    + match goal with |- wellFormed ?t =>
        refine (wellFormed_grow st' t _ eq_refl Hwf') end. exact (grows_refl st').
    + match goal with |- freshIds _ ?t =>
        refine (freshIds_grow st' t _ eq_refl Hwf' Hf') end. exact (grows_refl st').
  - split; assumption.
Qed.

Lemma sound_step ss e : sound host ss -> sound host (step host ss e).
Proof.
  intros (Hwf & Hf & Hb). unfold sound.
  assert (Hother : forall a,
             sound host {| current := perform host (current ss) a;
                           inFlight := inFlight ss; timers := timers ss |}).
  { intros a. unfold sound. cbn [current inFlight].
    pose proof (wellFormed_perform host (current ss) a Hwf) as Hwf'.
    pose proof (freshIds_perform host (current ss) a Hwf Hf) as Hf'.
    split; [exact Hwf' |]. split; [exact Hf' |].
    destruct (inFlight ss) as [b |]; [| exact I].
    destruct Hb as [Hwb Hfb].
    exact (sound_settle b _ _ (grows_perform (current ss) a Hwf) Hwf' Hf' Hwb Hfb). }
  destruct e as [a | |].
  - destruct a as [files | | index | | index | s]; cbn [step];
      try apply Hother.
    + destruct (compressDisabled (current ss)); [now repeat split |].
      pose proof (startCompress_settle (current ss)) as Hs.
      destruct (startCompress_world (current ss)) as (Hw & Hi & _).
      destruct (startCompress host (current ss)) as [st b].
      cbn [fst snd current inFlight] in *.
      assert (G : grows (current ss) st).
      { unfold grows. rewrite Hw. now apply grows_compress. }
      split; [exact (wellFormed_grow _ _ G Hi Hwf) |].
      split; [exact (freshIds_grow _ _ G Hi Hwf Hf) |].
      rewrite Hs. split; [now apply wellFormed_compress | now apply freshIds_compress].
    + destruct (downloadAllDisabled (current ss)); now repeat split.
  - cbn [step]. destruct (inFlight ss) as [b |] eqn:Eb; [| rewrite Eb; now repeat split].
    destruct Hb as [Hwb Hfb].
    destruct (outcome b) eqn:O; cbn [current inFlight].
    + now repeat split.
    + now repeat split.
    + rewrite Eb. now repeat split.
  - cbn [step]. destruct (timers ss) as [| [image format] rest]; [now repeat split |].
    cbn [current inFlight].
    destruct (timedDownload_frame image format (current ss)) as [Hsame _].
    pose proof (wellFormed_sameList _ _ Hsame Hwf) as Hwf'.
    pose proof (freshIds_grow _ _ (grows_sameList _ _ Hsame)
                  (proj2 (proj2 Hsame)) Hwf Hf) as Hf'.
    split; [exact Hwf' |]. split; [exact Hf' |].
    destruct (inFlight ss) as [b |]; [| exact I].
    destruct Hb as [Hwb Hfb].
    exact (sound_settle b _ _ (grows_sameList _ _ Hsame) Hwf' Hf' Hwb Hfb).
Qed.

Lemma sound_initial : sound host initialSession.
Proof.
  split; [constructor |]. split; [| exact I].
  exists []. repeat split; constructor.
Qed.

Lemma sound_play events : sound host (play host events initialSession).
Proof. apply (play_invariant (sound host)); [apply sound_step | apply sound_initial]. Qed.

Lemma freshIds_distinct st :
  distinctDraws host st -> freshIds host st -> NoDup (idsOf st).
Proof.
  intros Hinj (ks & Hids & Hnd & Hlt). rewrite Hids. clear Hids.
  induction Hnd as [| k ks Hk _ IH]; [constructor |].
  apply Forall_cons in Hlt as [Hlt Hrest].
  cbn [map]. constructor; [| exact (IH Hrest)].
  intros Hin. apply Hk.
  apply list_elem_of_In, in_map_iff in Hin as (k' & Hk' & Hin).
  apply list_elem_of_In in Hin.
  pose proof (proj1 (Forall_forall _ _) Hrest k' Hin) as Hlt'. cbn in Hlt'.
  apply Hinj in Hk'; [| assumption | assumption]. now subst k'.
Qed.

(** X7.  As long as the identifiers drawn so far are pairwise different,
    the images of the list have pairwise different [id]s, whatever has
    happened in the session: the keys the list is rendered with are
    unique. *)
Theorem ids_are_unique (events : list Event) :
  distinctDraws host (current (play host events initialSession)) ->
  NoDup (idsOf (current (play host events initialSession))).
Proof.
  intros Hinj. apply freshIds_distinct; [exact Hinj |].
  apply (sound_play events).
Qed.

(** *** Removing one image *)

(** X8.  As long as the identifiers drawn so far are pairwise different,
    a press of the remove button of an image takes that image out of the
    list and no other, at any moment of a session, also while a batch is
    in flight; for an index past the end nothing happens. *)
Theorem remove_takes_one (events : list Event) (index : nat) :
  distinctDraws host (current (play host events initialSession)) ->
  images (current (play host (events ++ [User (Remove index)]) initialSession)) =
  delete index (images (current (play host events initialSession))).
Proof.
  intros Hinj. unfold play. rewrite fold_left_app. cbn [fold_left].
  fold (play host events initialSession).
  destruct (sound_play events) as (Hwf & Hf & _).
  pose proof (freshIds_distinct _ Hinj Hf) as Hnd.
  cbn [step current perform].
  set (st := current (play host events initialSession)) in *.
  destruct (imageAt st index) as [image |] eqn:Him.
  - unfold imageAt in Him.
    destruct (images st !! index) as [r |] eqn:Hi; [| discriminate].
    cbn [mbind option_bind] in Him.
    unfold removeImage. cbn [images].
    now apply (filter_removes_index _ _ index r image).
  - symmetry. apply delete_beyond. now apply imageAt_valid.
Qed.

(** *** The end of a batch *)

Lemma inFlight_kept b events :
  forall ss,
    Settle ∉ events -> wellFormed (current ss) ->
    inFlight ss = Some b -> isProcessing (current ss) = true ->
    let ss' := play host events ss in
    inFlight ss' = Some b /\ isProcessing (current ss') = true /\
    grows (current ss) (current ss') /\ wellFormed (current ss').
Proof.
  induction events as [| e events IH]; intros ss Hno Hwf Hb Hp; cbv zeta.
  - cbn [play fold_left].
    split; [exact Hb |]. split; [exact Hp |]. split; [apply grows_refl | exact Hwf].
  - apply not_elem_of_cons in Hno as [He Hno].
    cbn [play fold_left]. fold (play host events (step host ss e)).
    assert (Hsame : inFlight ss = Some b /\ isProcessing (current ss) = true /\
                    grows (current ss) (current ss) /\ wellFormed (current ss)).
    { split; [exact Hb |]. split; [exact Hp |]. split; [apply grows_refl | exact Hwf]. }
    assert (Hstep : inFlight (step host ss e) = Some b /\
                    isProcessing (current (step host ss e)) = true /\
                    grows (current ss) (current (step host ss e)) /\
                    wellFormed (current (step host ss e))).
    { destruct e as [a | |]; [| congruence |].
      - assert (Hother : inFlight ss = Some b /\
                  isProcessing (perform host (current ss) a) = true /\
                  grows (current ss) (perform host (current ss) a) /\
                  wellFormed (perform host (current ss) a)).
        { split; [exact Hb |]. split; [now apply isProcessing_perform |].
          split; [now apply grows_perform | now apply wellFormed_perform]. }
        destruct a as [files | | index | | index | s]; cbn [step current inFlight];
          try exact Hother.
        + unfold compressDisabled. rewrite Hp, orb_true_r. exact Hsame.
        + destruct (downloadAllDisabled (current ss)); cbn [current inFlight];
            exact Hsame.
      - cbn [step]. destruct (timers ss) as [| [image format] rest]; [exact Hsame |].
        cbn [current inFlight].
        destruct (timedDownload_frame image format (current ss)) as [Hsl Hp'].
        split; [exact Hb |]. split; [now rewrite Hp' |].
        split; [now apply grows_sameList | now apply (wellFormed_sameList _ _ Hsl)]. }
    destruct Hstep as (Hb1 & Hp1 & G1 & Hwf1).
    destruct (IH (step host ss e) Hno Hwf1 Hb1 Hp1) as (Hb2 & Hp2 & G2 & Hwf2).
    split; [exact Hb2 |]. split; [exact Hp2 |].
    split; [eapply grows_trans; eassumption | exact Hwf2].
Qed.

Lemma results_have_blobs (w w' : World) (rs rs' : list ref) :
  Forall2 (entryResult w w') rs rs' ->
  Forall (fun o => present (compressedBlob o) = true)
    (omap (fun r : ref => heap w' !! r) rs').
Proof.
  induction 1 as [| r r' rs rs' (o' & Ho' & Hb & _) _ IH]; [constructor |].
  rewrite (omap_lookup_cons _ r' rs' o' Ho'). now constructor.
Qed.

(** X13.  When a batch resolves, its continuation replaces the list by
    the batch's results, whatever happened while it was in flight: the
    list then shows the images it showed when "Comprimir Imagens" was
    pressed, each with a blob, so an image removed in the meantime is
    back and an image added in the meantime is gone. *)
Theorem settle_restores_snapshot (ss : Session) (events : list Event) :
  wellFormed (current ss) ->
  compressDisabled (current ss) = false ->
  existsb (fails host (settings (current ss))) (entries (current ss)) = false ->
  existsb (stalls host (settings (current ss))) (entries (current ss)) = false ->
  Settle ∉ events ->
  let during := play host events (step host ss (User Compress)) in
  let after := step host during Settle in
  entries (current after) = entries (handleCompress host (current ss)) /\
  idsOf (current after) = idsOf (current ss) /\
  Forall (fun o => present (compressedBlob o) = true) (entries (current after)) /\
  toasts (current after) =
    toasts (current during) ++ [ToastDone (length (images (current ss)))] /\
  isProcessing (current after) = false /\
  inFlight after = None.
Proof.
  intros Hwf Hen Hf Hs Hno. cbv zeta.
  set (st := current ss) in *.
  destruct (Promise_all_verdict host (settings st) (images st)
              (heap (world st)) (world st) (reflexivity _) Hwf) as (V & _).
  fold (entries st) in V. unfold batchVerdict in V. rewrite Hf, Hs in V.
  pose proof (wellFormed_compress host st Hwf) as Hwf2.
  destruct (idsOf_compress host st Hwf) as [Hids _].
  pose proof (grows_compress st Hwf) as G0.
  cbn [step]. fold st. rewrite Hen. rewrite startCompress_unfold. cbv zeta.
  revert Hwf2 Hids G0. unfold handleCompress.
  destruct (Promise_all _ (world st)) as [w out] eqn:E0. cbn [fst snd] in *.
  destruct (Promise_all_compress host _ _ _ _ _ E0) as [_ R].
  destruct out as [rs | |]; try discriminate.
  specialize (R rs eq_refl).
  cbn [world images]. intros Hwf2 Hids G0.
  set (b := {| snapshot := images st; outcome := Resolved rs |}).
  match goal with |- context [play host events ?s] => set (ss1 := s) end.
  assert (Hwf1 : wellFormed (current ss1)).
  { exact (wellFormed_grow st (current ss1) G0 eq_refl Hwf). }
  destruct (inFlight_kept b events ss1 Hno Hwf1 eq_refl eq_refl)
    as (Hb & Hp & [P _] & Hwfd).
  cbv zeta in *. rewrite Hb. cbn [outcome b current inFlight].
  unfold settleCompress. cbn [outcome snapshot b].
  assert (E : entries
                {| world := world (current (play host events ss1)); images := rs;
                   isProcessing := false;
                   settings := settings (current (play host events ss1));
                   toasts := toasts (current (play host events ss1)) ++
                             [ToastDone (length (images st))];
                   downloads := downloads (current (play host events ss1)) |} =
              omap (fun r : ref => heap w !! r) rs).
  { unfold entries. cbn [world images].
    exact (omap_lookup_prefix _ _ _ P Hwf2). }
  split; [exact E |].
  split; [unfold idsOf; rewrite E; exact Hids |].
  split; [rewrite E; exact (results_have_blobs _ _ _ _ R) |].
  repeat split.
Qed.

End InTime.

(** ** The name of a download *)

Section DownloadNames.

Lemma split_head s : exists rest, split "." s = beforeDot s :: rest.
Proof.
  induction s as [| c s [rest IH]]; cbn [split beforeDot].
  - now exists [].
  - destruct (Ascii.eqb c "."); [now eexists |].
    rewrite IH. now eexists.
Qed.

Lemma beforeDot_no_dot s : hasDot (beforeDot s) = false.
Proof.
  induction s as [| c s IH]; cbn [beforeDot]; [reflexivity |].
  destruct (Ascii.eqb c ".") eqn:E; [reflexivity |].
  cbn [hasDot]. now rewrite E, IH.
Qed.

Lemma beforeDot_whole s : hasDot s = false -> beforeDot s = s.
Proof.
  induction s as [| c s IH]; cbn [beforeDot hasDot]; [reflexivity |].
  intros H. apply orb_false_iff in H as [Hc Hs].
  rewrite Hc. now rewrite (IH Hs).
Qed.

(** X10.  The name offered for a download is [compressed_], the
    characters of the file name before its first full stop, a full stop
    and the output format, for every file name: a name without a full
    stop is kept whole, and two names that agree up to their first full
    stop get the same download name. *)
Theorem downloadName_before_dot (name other format : string) :
  downloadName name format =
    ("compressed_" ++ beforeDot name ++ "." ++ format)%string /\
  hasDot (beforeDot name) = false /\
  (hasDot name = false -> beforeDot name = name) /\
  (beforeDot name = beforeDot other ->
   downloadName name format = downloadName other format).
Proof.
  assert (E : forall n, downloadName n format =
                        ("compressed_" ++ beforeDot n ++ "." ++ format)%string).
  { intros n. unfold downloadName. destruct (split_head n) as [rest ->]. reflexivity. }
  split; [apply E |]. split; [apply beforeDot_no_dot |].
  split; [apply beforeDot_whole |].
  intros H. now rewrite !E, H.
Qed.

End DownloadNames.

(** ** Instances of the further properties *)

Section MoreInstances.

Import Demo Sample.

Lemma unary_inj m : forall n, unary m = unary n -> m = n.
Proof.
  induction m as [| m IH]; intros [| n] H; cbn in H; try discriminate;
    [reflexivity |].
  injection H as H. f_equal. now apply IH.
Qed.

Lemma batch_wellFormed : wellFormed (batch defaults).
Proof. unfold wellFormed. vm_compute. repeat constructor. Qed.

Lemma downscale_fills_a_bound_witness :
  let c := renderCanvas true (of_Z 1920) (of_Z 1080) first 4000 2000 in
  (1920 - 1 <= canvas_width c <= 1920)%Z \/ (1080 - 1 <= canvas_height c <= 1080)%Z.
Proof. apply (downscale_fills_a_bound first 4000 2000 1920 1080); lia. Defined.

Lemma calculateSavings_range_witness :
  exists percent : Z,
    calculateSavings (of_Z 1000) (Some (of_Z 1500)) = of_Z percent /\
    (1500 <= 1000 -> 0 <= percent <= 100)%Z /\
    (1000 <= 1500 -> percent <= 0)%Z.
Proof. apply (calculateSavings_range 1000 1500); lia. Defined.

Example savings_of_a_larger_result :
  calculateSavings (of_Z 1000) (Some (of_Z 1500)) = of_Z (-50).
Proof. reflexivity. Qed.

Lemma handleCompress_verdict_witness :
  let st := batch defaults in
  let st' := handleCompress browser st in
  existsb (fails browser (settings st)) (entries st) = false /\
  existsb (stalls browser (settings st)) (entries st) = true /\
  toasts st' = toasts st /\ isProcessing st' = true /\ images st' = images st.
Proof.
  cbv zeta.
  assert (F : existsb (fails browser (settings (batch defaults)))
                (entries (batch defaults)) = false) by (vm_compute; reflexivity).
  assert (S : existsb (stalls browser (settings (batch defaults)))
                (entries (batch defaults)) = true) by (vm_compute; reflexivity).
  split; [exact F |]. split; [exact S |].
  exact (proj1 (proj2 (handleCompress_verdict browser (batch defaults) batch_wellFormed))
           F S).
Defined.

Lemma handleCompress_calls_witness :
  let st := batch defaults in
  let st' := handleCompress browser st in
  let work := List.filter needsWork (entries st) in
  transformCalls (world st') = transformCalls (world st) ++ map originalFile work /\
  urls (world st') = urls (world st) + length work /\
  draws (world st') = draws (world st).
Proof. exact (handleCompress_calls browser (batch defaults) batch_wellFormed). Defined.

Example calls_of_the_batch :
  transformCalls (world (handleCompress browser (batch defaults))) =
    [first; corrupt; third].
Proof. vm_compute. reflexivity. Qed.

(** The identifiers of [Demo.browser] repeat after 256 draws; the three
    of the sample session are different. *)
Lemma overlap_distinctDraws :
  distinctDraws browser (current (play browser overlap initialSession)).
Proof.
  assert (D : draws (world (current (play browser overlap initialSession))) = 3)
    by (vm_compute; reflexivity).
  intros m n Hm Hn H. rewrite D in Hm, Hn.
  destruct m as [| [| [| m]]]; destruct n as [| [| [| n]]];
    try lia; try reflexivity; vm_compute in H; discriminate.
Qed.

Lemma ids_are_unique_witness :
  distinctDraws browser (current (play browser overlap initialSession)) /\
  NoDup (idsOf (current (play browser overlap initialSession))).
Proof.
  split; [exact overlap_distinctDraws |].
  exact (ids_are_unique browser overlap overlap_distinctDraws).
Defined.

Lemma remove_takes_one_witness :
  images (current (play browser (overlap ++ [User (Remove 0)]) initialSession)) =
  delete 0 (images (current (play browser overlap initialSession))).
Proof. exact (remove_takes_one browser overlap 0 overlap_distinctDraws). Defined.

Lemma settle_restores_snapshot_witness :
  let ss := play browser picked initialSession in
  let during := play browser meanwhile (step browser ss (User Compress)) in
  let after := step browser during Settle in
  (Settle ∉ meanwhile) /\
  idsOf (current after) = idsOf (current ss) /\
  isProcessing (current after) = false.
Proof.
  cbv zeta.
  assert (Hno : Settle ∉ meanwhile).
  { unfold meanwhile. rewrite !not_elem_of_cons.
    repeat split; try discriminate. apply not_elem_of_nil. }
  assert (Hwf : wellFormed (current (play browser picked initialSession)))
    by (unfold wellFormed; vm_compute; repeat constructor).
  assert (Hen : compressDisabled (current (play browser picked initialSession)) = false)
    by (vm_compute; reflexivity).
  assert (Hf : existsb (fails browser (settings (current (play browser picked initialSession))))
                 (entries (current (play browser picked initialSession))) = false)
    by (vm_compute; reflexivity).
  assert (Hs : existsb (stalls browser (settings (current (play browser picked initialSession))))
                 (entries (current (play browser picked initialSession))) = false)
    by (vm_compute; reflexivity).
  destruct (settle_restores_snapshot browser (play browser picked initialSession)
              meanwhile Hwf Hen Hf Hs Hno) as (_ & Hids & _ & _ & Hp & _).
  split; [exact Hno |]. split; [exact Hids | exact Hp].
Defined.

(** An image removed while the batch runs is back when the batch ends,
    and a file picked meanwhile is lost. *)
Example removed_image_returns :
  let names := fun st => map (fun o => File.name (originalFile o)) (entries st) in
  let during := play browser (picked ++ [User Compress] ++ meanwhile) initialSession in
  names (current during) = ["third.png"%string; "late.png"%string] /\
  names (current (step browser during Settle)) =
    ["first.png"%string; "third.png"%string] /\
  names (run browser [Upload [first; third]; Compress; Remove 0] initialState) =
    ["third.png"%string].
Proof. cbv zeta. vm_compute. repeat split. Qed.

Example overlap_sample :
  let st := current (play browser overlap initialSession) in
  idsOf st = ["aid"%string; "bid"%string] /\
  map fst (downloads st) = ["compressed_first.jpeg"%string] /\
  toasts st = [ToastDone 2].
Proof. cbv zeta. vm_compute. repeat split. Qed.

(** With a host that repeats an identifier, one press of a remove button
    takes every image that has it. *)
Example remove_with_repeated_ids :
  let host := {| loadImage := loadImage browser; encode := encode browser;
                 randomId := fun _ => "same"%string;
                 createObjectURL := createObjectURL browser |} in
  length (images (run host [Upload [first; third]] initialState)) = 2 /\
  images (run host [Upload [first; third]; Remove 0] initialState) = [].
Proof. split; reflexivity. Qed.

Lemma stall_is_permanent_witness :
  let st' := run browser session (handleCompress browser (batch defaults)) in
  isProcessing st' = true /\ compressDisabled st' = true.
Proof.
  refine (stall_is_permanent browser (batch defaults) session batch_wellFormed _ _);
    vm_compute; reflexivity.
Defined.

Example session_sample :
  let st := run careful session initialState in
  idsOf st = ["x"%string; "xx"%string] /\
  map fst (downloads st) = ["compressed_third.jpeg"%string; "compressed_photo.jpeg"%string] /\
  toasts st = [ToastDone 2; ToastDone 2].
Proof. cbv zeta. vm_compute. repeat split. Qed.

Example upload_store_sample :
  let st := handleFileUpload careful [first; notes; third] initialState in
  map id (heap (world st)) = [""%string; "x"%string] /\
  map preview (heap (world st)) = ["aurl"%string; "burl"%string] /\
  images st = [0; 1].
Proof. cbv zeta. vm_compute. repeat split. Qed.

End MoreInstances.
